(** * sPAPR machine capabilities (hw/ppc/spapr_caps.c)

    A shallow embedding of the capability handling of the pSeries machine:
    the capability table, the default resolver, the reset/apply engine, the
    property setter and the migration hooks, followed by the properties the
    design document states about them.

    C state is threaded explicitly: the functions that take the machine
    pointer, read the globals [first_cpu] and the accelerator switches, and
    print through [error_report]/[warn_report] are computations of a small
    state-and-exit monad [M] over a [World]. *)

From Stdlib Require Import ZArith List Lia Ascii.
From stdpp Require Import base tactics option list strings pretty.

(** ** Constants *)

(** Modelled from the spec: hw/ppc/spapr.h, which numbers the capabilities
    and the levels, is not among the sources.  The registry has the three
    entries of [capability_table], ordinals are [0, N) in registry order
    and the levels are OFF=0, ON=1. *)
Definition SPAPR_CAP_HTM : nat := 0.
Definition SPAPR_CAP_VSX : nat := 1.
Definition SPAPR_CAP_DFP : nat := 2.
Definition SPAPR_CAP_NUM : nat := S SPAPR_CAP_DFP.
Definition SPAPR_CAP_OFF : Z := 0.
Definition SPAPR_CAP_ON : Z := 1.

(** errno.h *)
Definition EINVAL : Z := 22.

(** ** Data *)

(** [uint8_t]: a [Z] in [0, 256). Levels are only copied and compared by
    this file, never computed with, so no wrap-around occurs. *)
Definition is_uint8 (v : Z) : Prop := (0 ≤ v < 256)%Z.

(** [typedef struct sPAPRCapabilities { uint8_t caps[SPAPR_CAP_NUM]; }] *)
Record sPAPRCapabilities := { caps : list Z }.

Record sPAPRMachineClass := { default_caps : sPAPRCapabilities }.

(** The fields of [sPAPRMachineState] this file touches; [smc] stands for
    [SPAPR_MACHINE_GET_CLASS(spapr)]. *)
Record sPAPRMachineState := {
  smc : sPAPRMachineClass;
  max_compat_pvr : Z;
  cmd_line_caps : list bool;
  def : sPAPRCapabilities;
  eff : sPAPRCapabilities;
  mig : sPAPRCapabilities
}.

(** The fields of [PowerPCCPU] (and its [env]) this file reads.
    [pcr_supported] is what the compatibility query looks at. *)
Record PowerPCCPU := {
  insns_flags : Z;
  insns_flags2 : Z;
  pcr_supported : Z
}.

Definition Error := string.

(** What the outside can observe of a run: the two report channels, and
    each indirect call through [capability_table[i].apply]. *)
Inductive event :=
| EvErrorReport (msg : string)
| EvWarnReport (msg : string)
| EvApply (i : nat) (val : Z).

(** The calls of [apply] among the events, in order. *)
Definition apply_calls (t : list event) : list (nat * Z) :=
  omap (λ e, match e with EvApply i val => Some (i, val) | _ => None end) t.

(** The machine, the globals the code reads, and the events so far. *)
Record World := {
  spapr : sPAPRMachineState;
  first_cpu : PowerPCCPU;
  tcg_enabled : bool;
  kvm_enabled : bool;
  kvmppc_has_cap_htm : bool;
  trace : list event
}.

(** [c.caps[i]] and [c.caps[i] = v]. *)
Definition cap_get (c : sPAPRCapabilities) (i : nat) : Z := caps c !!! i.
Definition cap_set (c : sPAPRCapabilities) (i : nat) (v : Z) : sPAPRCapabilities :=
  {| caps := <[i:=v]> (caps c) |}.

Definition set_cmd_line_caps (l : list bool) (s : sPAPRMachineState) :=
  {| smc := smc s; max_compat_pvr := max_compat_pvr s; cmd_line_caps := l;
     def := def s; eff := eff s; mig := mig s |}.
Definition set_def (c : sPAPRCapabilities) (s : sPAPRMachineState) :=
  {| smc := smc s; max_compat_pvr := max_compat_pvr s;
     cmd_line_caps := cmd_line_caps s; def := c; eff := eff s; mig := mig s |}.
Definition set_eff (c : sPAPRCapabilities) (s : sPAPRMachineState) :=
  {| smc := smc s; max_compat_pvr := max_compat_pvr s;
     cmd_line_caps := cmd_line_caps s; def := def s; eff := c; mig := mig s |}.
Definition set_mig (c : sPAPRCapabilities) (s : sPAPRMachineState) :=
  {| smc := smc s; max_compat_pvr := max_compat_pvr s;
     cmd_line_caps := cmd_line_caps s; def := def s; eff := eff s; mig := c |}.

Definition set_spapr (s : sPAPRMachineState) (w : World) :=
  {| spapr := s; first_cpu := first_cpu w; tcg_enabled := tcg_enabled w;
     kvm_enabled := kvm_enabled w; kvmppc_has_cap_htm := kvmppc_has_cap_htm w;
     trace := trace w |}.
Definition add_events (es : list event) (w : World) :=
  {| spapr := spapr w; first_cpu := first_cpu w; tcg_enabled := tcg_enabled w;
     kvm_enabled := kvm_enabled w; kvmppc_has_cap_htm := kvmppc_has_cap_htm w;
     trace := trace w ++ es |}.

(** Frames: what an operation that writes only [mig], or only the
    machine, leaves alone. *)
Definition same_but_mig (s s' : sPAPRMachineState) : Prop :=
  def s' = def s ∧ eff s' = eff s ∧ cmd_line_caps s' = cmd_line_caps s ∧
  smc s' = smc s ∧ max_compat_pvr s' = max_compat_pvr s.
Definition same_but_spapr (w w' : World) : Prop :=
  first_cpu w' = first_cpu w ∧ tcg_enabled w' = tcg_enabled w ∧
  kvm_enabled w' = kvm_enabled w ∧ kvmppc_has_cap_htm w' = kvmppc_has_cap_htm w ∧
  trace w' = trace w.

(** What the apply callbacks read of the world. *)
Definition same_env (w w' : World) : Prop :=
  first_cpu w' = first_cpu w ∧ tcg_enabled w' = tcg_enabled w ∧
  kvm_enabled w' = kvm_enabled w ∧ kvmppc_has_cap_htm w' = kvmppc_has_cap_htm w.

(** Arrays have their declared size and hold bytes. *)
Definition caps_wf (c : sPAPRCapabilities) : Prop :=
  length (caps c) = SPAPR_CAP_NUM ∧ Forall is_uint8 (caps c).
Definition spapr_wf (s : sPAPRMachineState) : Prop :=
  caps_wf (default_caps (smc s)) ∧ length (cmd_line_caps s) = SPAPR_CAP_NUM ∧
  caps_wf (def s) ∧ caps_wf (eff s) ∧ caps_wf (mig s).

(** ** The monad *)

(** A computation returns, or ends the process: [exit(status)] after a
    fatal error, or [abort()] from a failed [g_assert]. *)
Inductive outcome (A : Type) :=
| Returned (a : A)
| Exited (status : Z)
| Aborted.
Arguments Returned {A} a.
Arguments Exited {A} status.
Arguments Aborted {A}.

Definition M (A : Type) : Type := World → outcome A * World.

Definition M_ret {A} (a : A) : M A := λ w, (Returned a, w).
Definition M_bind {A B} (f : A → M B) (m : M A) : M B := λ w,
  match m w with
  | (Returned a, w') => f a w'
  | (Exited st, w') => (Exited st, w')
  | (Aborted, w') => (Aborted, w')
  end.

#[global] Instance M_mret : MRet M := @M_ret.
#[global] Instance M_mbind : MBind M := @M_bind.

Definition get_world : M World := λ w, (Returned w, w).
Definition put_spapr (s : sPAPRMachineState) : M unit := λ w, (Returned tt, set_spapr s w).
Definition emit (e : event) : M unit := λ w, (Returned tt, add_events [e] w).
Definition exit {A} (status : Z) : M A := λ w, (Exited status, w).
Definition g_assert (b : bool) : M unit := λ w, if b then (Returned tt, w) else (Aborted, w).

Definition error_report (msg : string) : M unit := emit (EvErrorReport msg).
Definition warn_report (msg : string) : M unit := emit (EvWarnReport msg).

(** [for (i = lo; ...; i++) s = body(i, s)] over the indices of [l], with
    the loop-carried locals in [s]. *)
Fixpoint for_each {S : Type} (l : list nat) (body : nat → S → M S) (s : S) : M S :=
  match l with
  | [] => mret s
  | i :: l' => s' ← body i s; for_each l' body s'
  end.

(** [for (i = 0; i < n; i++)] *)
Definition for_range {S : Type} (n : nat) (body : nat → S → M S) (s : S) : M S :=
  for_each (seq 0 n) body s.

(** ** Error destinations *)

(** Modelled from the spec: qapi/error.h is not among the sources.  An
    [Error **errp] is either the fatal channel [&error_fatal], which
    reports and ends the process, or a caller's variable, in which the
    error is handed back ("recoverable error, returned to a configuration
    caller").  A function taking [errp] returns what it left there. *)
Inductive Errp := error_fatal | errp_local.

Definition error_setg (errp : Errp) (msg : string) : M (option Error) :=
  match errp with
  | error_fatal => error_report msg;; exit 1%Z
  | errp_local => mret (Some msg)
  end.

Definition error_propagate (errp : Errp) (local_err : Error) : M (option Error) :=
  error_setg errp local_err.

(** ** Code outside this file *)

(** What the file calls but does not define: the CPU compatibility query
    of target/ppc with the logical PVRs it is asked about, the instruction
    flag bits of target/ppc/cpu.h, and the boolean decoder of the property
    visitor. They are parameters of everything below. *)
Class Collaborators := {
  CPU_POWERPC_LOGICAL_2_06 : Z;
  CPU_POWERPC_LOGICAL_2_07 : Z;
  PPC_ALTIVEC : Z;
  PPC2_VSX : Z;
  PPC2_DFP : Z;
  ppc_check_compat : PowerPCCPU → Z → Z → Z → bool;
  Visitor : Type;
  visit_type_bool : Visitor → string → Error + bool
}.

(** A small platform for the examples: compatibility is a comparison of
    logical PVRs, the visitor reads the words on and off. *)
Definition example_check_compat (cpu : PowerPCCPU)
    (compat_pvr min_compat_pvr max_compat_pvr : Z) : bool :=
  (compat_pvr <=? pcr_supported cpu)%Z && (min_compat_pvr <=? compat_pvr)%Z &&
  ((max_compat_pvr =? 0)%Z || (compat_pvr <=? max_compat_pvr)%Z).

Definition example_visit_type_bool (v : string) (name : string) : Error + bool :=
  if decide (v = "on") then inr true
  else if decide (v = "off") then inr false
  else inl ("Parameter '" +:+ name +:+ "' expects 'on' or 'off'").

Definition example_platform : Collaborators :=
  {| CPU_POWERPC_LOGICAL_2_06 := 0x0F000003;
     CPU_POWERPC_LOGICAL_2_07 := 0x0F000004;
     PPC_ALTIVEC := 0x01000000;
     PPC2_VSX := 0x2;
     PPC2_DFP := 0x4;
     ppc_check_compat := example_check_compat;
     Visitor := string;
     visit_type_bool := example_visit_type_bool |}.

(** A POWER8-like CPU (up to ISA 2.07) and a POWER7-like one (up to 2.06),
    both with AltiVec, VSX and DFP. *)
Definition example_power8 : PowerPCCPU :=
  {| insns_flags := 0x01000000; insns_flags2 := 0x6; pcr_supported := 0x0F000004 |}.
Definition example_power7 : PowerPCCPU :=
  {| insns_flags := 0x01000000; insns_flags2 := 0x6; pcr_supported := 0x0F000003 |}.

Definition example_machine (cmd_line : list bool) (def eff mig : list Z)
    : sPAPRMachineState :=
  {| smc := {| default_caps := {| caps := [1; 1; 1]%Z |} |};
     max_compat_pvr := 0;
     cmd_line_caps := cmd_line;
     def := {| caps := def |};
     eff := {| caps := eff |};
     mig := {| caps := mig |} |}.

(** A KVM host with HTM support. *)
Definition example_world (cpu : PowerPCCPU) (s : sPAPRMachineState) : World :=
  {| spapr := s; first_cpu := cpu; tcg_enabled := false; kvm_enabled := true;
     kvmppc_has_cap_htm := true; trace := [] |}.

(** The same under TCG, which has no HTM. *)
Definition example_world_tcg (cpu : PowerPCCPU) (s : sPAPRMachineState) : World :=
  {| spapr := s; first_cpu := cpu; tcg_enabled := true; kvm_enabled := false;
     kvmppc_has_cap_htm := false; trace := [] |}.

(** Scenario A: baseline all ON, a CPU below the HTM threshold, nothing
    overridden, before the first reset. *)
Definition scenario_A : World :=
  example_world example_power7
    (example_machine [false; false; false] [0; 0; 0]%Z [0; 0; 0]%Z [0; 0; 0]%Z).

(** The same machine with HTM overridden to ON, and on a TCG host. *)
Definition scenario_A_htm_on : World :=
  example_world example_power7
    (example_machine [true; false; false] [0; 0; 0]%Z [1; 0; 0]%Z [0; 0; 0]%Z).
Definition scenario_A_tcg : World :=
  example_world_tcg example_power7
    (example_machine [true; false; false] [0; 0; 0]%Z [1; 0; 0]%Z [0; 0; 0]%Z).

(** Scenario B: a destination with HTM off by default and not overridden,
    after the wire delivered HTM=1 into the migration set. *)
Definition scenario_B : World :=
  example_world example_power7
    (example_machine [false; false; false] [0; 1; 1]%Z [0; 1; 1]%Z [1; 1; 1]%Z).

(** The other way round: the destination overrides HTM to ON, the source
    sent nothing. *)
Definition scenario_downgrade : World :=
  example_world example_power7
    (example_machine [true; false; false] [0; 1; 1]%Z [1; 1; 1]%Z [0; 1; 1]%Z).

(** A destination on a CPU that offers HTM by default, whose user turned
    HTM off. *)
Definition scenario_htm_forced_off : World :=
  example_world example_power8
    (example_machine [true; false; false] [1; 1; 1]%Z [0; 1; 1]%Z [0; 0; 0]%Z).

Section spapr_caps.
Context `{Collaborators}.

(** ** The capability table *)

Record sPAPRCapabilityInfo := {
  name : string;
  description : string;
  index : nat;
  (* get and set are spapr_cap_get_bool and spapr_cap_set_bool in every entry *)
  type : string;
  (* Make sure the virtual hardware can support this capability *)
  apply : Z → Errp → M (option Error)
}.

Definition cap_htm_apply (val : Z) (errp : Errp) : M (option Error) :=
  if (val =? 0)%Z then
    (* TODO: We don't support disabling htm yet *)
    mret None
  else
    w ← get_world;
    if tcg_enabled w then
      error_setg errp "No Transactional Memory support in TCG, try cap-htm=off"
    else if kvm_enabled w && negb (kvmppc_has_cap_htm w) then
      error_setg errp
        "KVM implementation does not support Transactional Memory, try cap-htm=off"
    else mret None.

Definition cap_vsx_apply (val : Z) (errp : Errp) : M (option Error) :=
  w ← get_world;
  let env := first_cpu w in
  if (val =? 0)%Z then
    (* TODO: We don't support disabling vsx yet *)
    mret None
  else
    g_assert (negb (Z.land (insns_flags env) PPC_ALTIVEC =? 0)%Z);;
    if (Z.land (insns_flags2 env) PPC2_VSX =? 0)%Z then
      error_setg errp "VSX support not available, try cap-vsx=off"
    else mret None.

Definition cap_dfp_apply (val : Z) (errp : Errp) : M (option Error) :=
  w ← get_world;
  let env := first_cpu w in
  if (val =? 0)%Z then
    (* TODO: We don't support disabling dfp yet *)
    mret None
  else if (Z.land (insns_flags2 env) PPC2_DFP =? 0)%Z then
    error_setg errp "DFP support not available, try cap-dfp=off"
  else mret None.

(** A zero-initialised slot: calling its NULL [apply] is a crash. *)
Definition zero_info : sPAPRCapabilityInfo :=
  {| name := ""; description := ""; index := 0; type := "";
     apply := λ _ _ w, (Aborted, w) |}.

#[global] Instance sPAPRCapabilityInfo_inhabited : Inhabited sPAPRCapabilityInfo :=
  populate zero_info.

(** [sPAPRCapabilityInfo capability_table[SPAPR_CAP_NUM] = { [SPAPR_CAP_HTM] =
    ..., [SPAPR_CAP_VSX] = ..., [SPAPR_CAP_DFP] = ... }]: designated
    initialisers over a zeroed array. *)
Definition capability_table : list sPAPRCapabilityInfo :=
  <[SPAPR_CAP_DFP :=
      {| name := "dfp";
         description := "Allow Decimal Floating Point (DFP)";
         index := SPAPR_CAP_DFP;
         type := "bool";
         apply := cap_dfp_apply |}]>
  (<[SPAPR_CAP_VSX :=
      {| name := "vsx";
         description := "Allow Vector Scalar Extensions (VSX)";
         index := SPAPR_CAP_VSX;
         type := "bool";
         apply := cap_vsx_apply |}]>
  (<[SPAPR_CAP_HTM :=
      {| name := "htm";
         description := "Allow Hardware Transactional Memory (HTM)";
         index := SPAPR_CAP_HTM;
         type := "bool";
         apply := cap_htm_apply |}]>
  (replicate SPAPR_CAP_NUM zero_info))).

(** ** The property setter *)

(** [obj] is the machine of the world; [opaque] is the table entry. *)
Definition spapr_cap_set_bool (v : Visitor) (name : string)
    (opaque : sPAPRCapabilityInfo) (errp : Errp) : M (option Error) :=
  let cap := opaque in
  match visit_type_bool v name with
  | inl local_err => error_propagate errp local_err
  | inr value =>
      w ← get_world;
      put_spapr (set_cmd_line_caps (<[index cap := true]> (cmd_line_caps (spapr w)))
                   (spapr w));;
      w ← get_world;
      put_spapr (set_eff (cap_set (eff (spapr w)) (index cap)
                            (if value : bool then SPAPR_CAP_ON else SPAPR_CAP_OFF))
                   (spapr w));;
      mret None
  end.

(** ** The default resolver *)

Definition default_caps_with_cpu (spapr : sPAPRMachineState) (cs : PowerPCCPU)
    : sPAPRCapabilities :=
  let smc := smc spapr in
  let cpu := cs in
  let caps := default_caps smc in
  let caps :=
    if negb (ppc_check_compat cpu CPU_POWERPC_LOGICAL_2_07 0 (max_compat_pvr spapr))
    then cap_set caps SPAPR_CAP_HTM SPAPR_CAP_OFF
    else caps in
  let caps :=
    if negb (ppc_check_compat cpu CPU_POWERPC_LOGICAL_2_06 0 (max_compat_pvr spapr))
    then cap_set (cap_set caps SPAPR_CAP_VSX SPAPR_CAP_OFF) SPAPR_CAP_DFP SPAPR_CAP_OFF
    else caps in
  caps.

(** The compatibility level a capability needs in order to be offered:
    the logical PVR [default_caps_with_cpu] asks about before it leaves
    the capability at its baseline. *)
Definition cap_compat_threshold (i : nat) : Z :=
  if decide (i = SPAPR_CAP_HTM) then CPU_POWERPC_LOGICAL_2_07
  else CPU_POWERPC_LOGICAL_2_06.

(** ** Migration hooks *)

Definition spapr_caps_pre_load : M Z :=
  w ← get_world;
  (* Set to default so we can tell if this came in with the migration *)
  put_spapr (set_mig (def (spapr w)) (spapr w));;
  mret 0%Z.

Definition spapr_caps_pre_save : M Z :=
  w ← get_world;
  put_spapr (set_mig (eff (spapr w)) (spapr w));;
  mret 0%Z.

(** The first loop of [spapr_caps_post_migration]: the local [srccaps]. *)
Definition post_migration_srccaps (spapr : sPAPRMachineState) (first_cpu : PowerPCCPU)
    : sPAPRCapabilities :=
  fold_left
    (λ srccaps i,
       (* If not default value then assume came in with the migration *)
       if negb (cap_get (mig spapr) i =? cap_get (def spapr) i)%Z
       then cap_set srccaps i (cap_get (mig spapr) i)
       else srccaps)
    (seq 0 SPAPR_CAP_NUM)
    (default_caps_with_cpu spapr first_cpu).

(** printf's [%d] of a level is its decimal numeral. *)
Definition higher_level_msg (name : string) (src dst : Z) : string :=
  "cap-" +:+ name +:+ " higher level (" +:+ pretty src +:+
  ") in incoming stream than on destination (" +:+ pretty dst +:+ ")".
Definition lower_level_msg (name : string) (src dst : Z) : string :=
  "cap-" +:+ name +:+ " lower level (" +:+ pretty src +:+
  ") in incoming stream than on destination (" +:+ pretty dst +:+ ")".

(** The body of the second loop of [spapr_caps_post_migration]; [ok] is
    the local it carries. *)
Definition post_migration_compare (srccaps dstcaps : sPAPRCapabilities)
    (i : nat) (ok : bool) : M bool :=
  let info := capability_table !!! i in
  ok ← (if (cap_get srccaps i >? cap_get dstcaps i)%Z then
          error_report (higher_level_msg (name info)
                          (cap_get srccaps i) (cap_get dstcaps i));;
          mret false
        else mret ok);
  (if (cap_get srccaps i <? cap_get dstcaps i)%Z then
     warn_report (lower_level_msg (name info)
                    (cap_get srccaps i) (cap_get dstcaps i))
   else mret tt);;
  mret ok.

Definition spapr_caps_post_migration : M Z :=
  w ← get_world;
  let ok := true in
  let dstcaps := eff (spapr w) in
  let srccaps := post_migration_srccaps (spapr w) (first_cpu w) in
  ok ← for_range SPAPR_CAP_NUM (post_migration_compare srccaps dstcaps) ok;
  mret (if ok : bool then 0 else - EINVAL)%Z.

(** [SPAPR_CAP_MIG_STATE(cap, ccap)]: the generated [spapr_cap_<cap>_needed]. *)
Definition SPAPR_CAP_MIG_STATE_needed (ccap : nat) (spapr : sPAPRMachineState) : bool :=
  (cmd_line_caps spapr !!! ccap) &&
  negb (cap_get (eff spapr) ccap =? cap_get (def spapr) ccap)%Z.

(** The part of a [VMStateDescription] the macro fills in; [field] is the
    index of the one [mig.caps] byte the record carries. *)
Record VMStateDescription := {
  vmsd_name : string;
  version_id : Z;
  minimum_version_id : Z;
  needed : sPAPRMachineState → bool;
  field : nat
}.

Definition SPAPR_CAP_MIG_STATE (cap : string) (ccap : nat) : VMStateDescription :=
  {| vmsd_name := "spapr/cap/" +:+ cap;
     version_id := 1;
     minimum_version_id := 1;
     needed := SPAPR_CAP_MIG_STATE_needed ccap;
     field := ccap |}.

Definition vmstate_spapr_cap_htm := SPAPR_CAP_MIG_STATE "htm" SPAPR_CAP_HTM.
Definition vmstate_spapr_cap_vsx := SPAPR_CAP_MIG_STATE "vsx" SPAPR_CAP_VSX.
Definition vmstate_spapr_cap_dfp := SPAPR_CAP_MIG_STATE "dfp" SPAPR_CAP_DFP.

(** ** Reset *)

(** The body of the first loop of [spapr_caps_reset]. *)
Definition reset_store_default (default_caps : sPAPRCapabilities) (i : nat) (_ : unit)
    : M unit :=
  w ← get_world;
  (* Store the defaults *)
  put_spapr (set_def (cap_set (def (spapr w)) i (cap_get default_caps i)) (spapr w));;
  w ← get_world;
  (* If not set on the command line then apply the default value *)
  if negb (cmd_line_caps (spapr w) !!! i) then
    put_spapr (set_eff (cap_set (eff (spapr w)) i (cap_get default_caps i)) (spapr w))
  else mret tt.

(** The body of the second loop: the indirect call is recorded, then made
    with the fatal error destination. *)
Definition reset_apply (i : nat) (_ : unit) : M unit :=
  let info := capability_table !!! i in
  w ← get_world;
  emit (EvApply i (cap_get (eff (spapr w)) i));;
  (*
   * If the apply function can't set the desired level and thinks it's
   * fatal, it should cause that.
   *)
  apply info (cap_get (eff (spapr w)) i) error_fatal;;
  mret tt.

Definition spapr_caps_reset : M unit :=
  w ← get_world;
  (* First compute the actual set of caps we're running with.. *)
  let default_caps := default_caps_with_cpu (spapr w) (first_cpu w) in
  for_range SPAPR_CAP_NUM (reset_store_default default_caps) tt;;
  (* .. then apply those caps to the virtual hardware *)
  for_range SPAPR_CAP_NUM reset_apply tt.

(** ** Vocabulary of the properties *)

(** What [spapr_caps_post_migration] reports about capability [i]. *)
Definition migration_reports (srccaps dstcaps : sPAPRCapabilities) (i : nat)
    : list event :=
  let nm := name (capability_table !!! i) in
  (if (cap_get srccaps i >? cap_get dstcaps i)%Z
   then [EvErrorReport (higher_level_msg nm (cap_get srccaps i) (cap_get dstcaps i))]
   else []) ++
  (if (cap_get srccaps i <? cap_get dstcaps i)%Z
   then [EvWarnReport (lower_level_msg nm (cap_get srccaps i) (cap_get dstcaps i))]
   else []).

(** The effect on an array of a loop that stores [v j] at each index [j]
    of [l] that satisfies [c]. *)
Definition overlay (c : nat → bool) (v : nat → Z) (l : list nat)
    (init : sPAPRCapabilities) : sPAPRCapabilities :=
  fold_left (λ acc j, if c j then cap_set acc j (v j) else acc) l init.

(** The calls [apply(i, c.caps[i])] for the indices of [l], as events and
    as (index, level) pairs. *)
Definition apply_events (c : sPAPRCapabilities) (l : list nat) : list event :=
  (λ i, EvApply i (cap_get c i)) <$> l.
Definition apply_pairs (c : sPAPRCapabilities) (l : list nat) : list (nat * Z) :=
  (λ i, (i, cap_get c i)) <$> l.

(** The machine after the first loop of [spapr_caps_reset]. *)
Definition reset_machine (s : sPAPRMachineState) (cpu : PowerPCCPU)
    : sPAPRMachineState :=
  let d := default_caps_with_cpu s cpu in
  set_eff (overlay (λ j, negb (cmd_line_caps s !!! j)) (cap_get d)
             (seq 0 SPAPR_CAP_NUM) (eff s))
    (set_def (overlay (λ _, true) (cap_get d) (seq 0 SPAPR_CAP_NUM) (def s)) s).

(** The character [c] does not occur in [s]. *)
Fixpoint string_free_of (c : ascii) (s : string) : Prop :=
  match s with
  | EmptyString => True
  | String a s' => a ≠ c ∧ string_free_of c s'
  end.

(** Invariant (2) of the data model. *)
Definition caps_invariant (s : sPAPRMachineState) : Prop :=
  ∀ i, i < SPAPR_CAP_NUM →
       cmd_line_caps s !!! i = false → cap_get (eff s) i = cap_get (def s) i.

(** Whether the callback of slot [i], asked for [val] with the fatal error
    destination, comes back. *)
Definition apply_returns (i : nat) (val : Z) (w : World) : bool :=
  match apply (capability_table !!! i) val error_fatal w with
  | (Returned _, _) => true
  | _ => false
  end.

(** ** Vocabulary of the further properties *)

(** What each callback asks of the backend before it accepts a level
    above OFF: [cap_htm_apply] refuses under TCG, and under KVM without
    the HTM capability; [cap_vsx_apply] needs AltiVec (asserted) and VSX;
    [cap_dfp_apply] needs DFP. *)
Definition htm_supported (w : World) : bool :=
  negb (tcg_enabled w) && negb (kvm_enabled w && negb (kvmppc_has_cap_htm w)).
Definition cpu_has_altivec (w : World) : bool :=
  negb (Z.land (insns_flags (first_cpu w)) PPC_ALTIVEC =? 0)%Z.
Definition cpu_has_vsx (w : World) : bool :=
  negb (Z.land (insns_flags2 (first_cpu w)) PPC2_VSX =? 0)%Z.
Definition cpu_has_dfp (w : World) : bool :=
  negb (Z.land (insns_flags2 (first_cpu w)) PPC2_DFP =? 0)%Z.

Definition backend_supports (i : nat) (w : World) : bool :=
  if decide (i = SPAPR_CAP_HTM) then htm_supported w
  else if decide (i = SPAPR_CAP_VSX) then cpu_has_altivec w && cpu_has_vsx w
  else if decide (i = SPAPR_CAP_DFP) then cpu_has_dfp w
  else false.

(** The message with which the callback of slot [i] refuses. *)
Definition apply_error_msg (i : nat) (w : World) : string :=
  if decide (i = SPAPR_CAP_HTM) then
    if tcg_enabled w
    then "No Transactional Memory support in TCG, try cap-htm=off"
    else "KVM implementation does not support Transactional Memory, try cap-htm=off"
  else if decide (i = SPAPR_CAP_VSX) then "VSX support not available, try cap-vsx=off"
  else "DFP support not available, try cap-dfp=off".

(** The level reset gives capability [i]: the user's where the override
    flag is set, the computed default elsewhere. *)
Definition merged_level (s : sPAPRMachineState) (cpu : PowerPCCPU) (i : nat) : Z :=
  if (cmd_line_caps s !!! i : bool) then cap_get (eff s) i
  else cap_get (default_caps_with_cpu s cpu) i.

(** The level the setter stores for a decoded boolean. *)
Definition level_of_bool (value : bool) : Z :=
  if value then SPAPR_CAP_ON else SPAPR_CAP_OFF.

(** Modelled from the spec: the serializer that walks the migration
    records is not among the sources.  A record is on the wire exactly
    when its [needed] holds on the source, its one field is the byte
    [mig.caps[field]], and a record that is absent leaves the
    destination's byte as it was. *)
Definition vmstate_load_caps (records : list VMStateDescription)
    (src dst : sPAPRMachineState) : sPAPRMachineState :=
  fold_left
    (λ d vmsd,
       if needed vmsd src
       then set_mig (cap_set (mig d) (field vmsd) (cap_get (mig src) (field vmsd))) d
       else d)
    records dst.

Definition vmstate_spapr_caps : list VMStateDescription :=
  [vmstate_spapr_cap_htm; vmstate_spapr_cap_vsx; vmstate_spapr_cap_dfp].

(** Error reports and warnings among the events. *)
Definition is_error_report (e : event) : bool :=
  match e with EvErrorReport _ => true | _ => false end.
Definition is_warn_report (e : event) : bool :=
  match e with EvWarnReport _ => true | _ => false end.

(** ** Property registration *)

(** The two QOM functions [spapr_caps_add_properties] calls are not among
    the sources; they are parameters here, acting on the class and
    answering with the error they set, if any.  [get], [set] and the NULL
    release hook are the same in every call and are left out. *)
Context {ObjectClass : Type}.
Context (object_class_property_add :
           ObjectClass → string → string → sPAPRCapabilityInfo → ObjectClass * option Error).
Context (object_class_property_set_description :
           ObjectClass → string → string → ObjectClass * option Error).

(** The calls made to them, in order. *)
Inductive qom_call :=
| PropertyAdd (name type : string) (opaque : sPAPRCapabilityInfo)
| PropertySetDescription (name description : string).

(** One turn of the loop of [spapr_caps_add_properties], on the class and
    the calls so far; the answer is what is handed to [error_propagate]
    before the early return, if anything. *)
Definition add_properties_body (i : nat) (st : ObjectClass * list qom_call)
    : (ObjectClass * list qom_call) * option Error :=
  let '(klass, calls) := st in
  let cap := capability_table !!! i in
  let name := "cap-" +:+ name cap in
  let '(klass, local_err) := object_class_property_add klass name (type cap) cap in
  let calls := calls ++ [PropertyAdd name (type cap) cap] in
  match local_err with
  | Some e => ((klass, calls), Some e)
  | None =>
      let desc := description cap in
      let '(klass, local_err) := object_class_property_set_description klass name desc in
      let calls := calls ++ [PropertySetDescription name desc] in
      ((klass, calls), local_err)
  end.

(** [for (i = ...) { ...; if (local_err) { error_propagate(...); return; } }] *)
Fixpoint add_properties_loop (l : list nat) (st : ObjectClass * list qom_call)
    : (ObjectClass * list qom_call) * option Error :=
  match l with
  | [] => (st, None)
  | i :: l' =>
      match add_properties_body i st with
      | (st', Some e) => (st', Some e)
      | (st', None) => add_properties_loop l' st'
      end
  end.

Definition spapr_caps_add_properties (klass : ObjectClass)
    : (ObjectClass * list qom_call) * option Error :=
  add_properties_loop (seq 0 (length capability_table)) (klass, []).

(** The two calls for the capability of slot [i], and making a list of
    calls in order until one of them sets an error. *)
Definition property_calls (i : nat) : list qom_call :=
  let cap := capability_table !!! i in
  [PropertyAdd ("cap-" +:+ name cap) (type cap) cap;
   PropertySetDescription ("cap-" +:+ name cap) (description cap)].

Definition qom_do (klass : ObjectClass) (c : qom_call) : ObjectClass * option Error :=
  match c with
  | PropertyAdd name type opaque => object_class_property_add klass name type opaque
  | PropertySetDescription name description =>
      object_class_property_set_description klass name description
  end.

Fixpoint qom_until_error (l : list qom_call) (st : ObjectClass * list qom_call)
    : (ObjectClass * list qom_call) * option Error :=
  match l with
  | [] => (st, None)
  | c :: l' =>
      match qom_do st.1 c with
      | (klass, Some e) => ((klass, st.2 ++ [c]), Some e)
      | (klass, None) => qom_until_error l' (klass, st.2 ++ [c])
      end
  end.

(** A class for the examples: the names of its properties, most recent
    first.  Adding a name twice is an error, as is describing a property
    that is not there. *)
Definition example_property_add (klass : list string) (name type : string)
    (opaque : sPAPRCapabilityInfo) : list string * option Error :=
  if decide (name ∈ klass)
  then (klass, Some ("attempt to add duplicate property '" +:+ name +:+ "'"))
  else (name :: klass, None).

Definition example_property_set_description (klass : list string)
    (name description : string) : list string * option Error :=
  if decide (name ∈ klass) then (klass, None)
  else (klass, Some ("Property '" +:+ name +:+ "' not found")).

(** * Properties *)

(** ** Worlds and events *)

Lemma add_events_nil w : add_events [] w = w.
Proof. destruct w; unfold add_events; simpl. by rewrite app_nil_r. Qed.

Lemma add_events_app es1 es2 w :
  add_events es2 (add_events es1 w) = add_events (es1 ++ es2) w.
Proof. unfold add_events; simpl. by rewrite app_assoc. Qed.

Lemma apply_calls_app t1 t2 : apply_calls (t1 ++ t2) = apply_calls t1 ++ apply_calls t2.
Proof. apply omap_app. Qed.

(** Running a computation: the monad's operations are state-passing
    functions and reduce once applied to a world. *)
Ltac run_M :=
  cbv beta iota zeta delta
    [mbind mret M_mbind M_mret M_bind M_ret error_report warn_report emit
     get_world put_spapr exit g_assert error_propagate error_setg].

Lemma bind_returned {A B} (m : M A) (f : A → M B) w a w' :
  m w = (Returned a, w') → (m ≫= f) w = f a w'.
Proof. intros Hm. run_M. by rewrite Hm. Qed.

Lemma bind_not_returned {A B} (m : M A) (f : A → M B) w r w' :
  m w = (r, w') → (∀ a, r ≠ Returned a) →
  (m ≫= f) w = (match r with Exited st => Exited st | _ => Aborted end, w').
Proof. intros Hm Hr. run_M. rewrite Hm. destruct r; [by destruct (Hr a) | done | done]. Qed.

Lemma for_each_cons {S} i l (body : nat → S → M S) s :
  for_each (i :: l) body s = body i s ≫= for_each l body.
Proof. reflexivity. Qed.

(** ** Arrays *)

Lemma cap_get_set_eq c i v : i < length (caps c) → cap_get (cap_set c i v) i = v.
Proof. intros Hi. unfold cap_get, cap_set; simpl. by apply list_lookup_total_insert_eq. Qed.

Lemma cap_get_set_ne c i j v : i ≠ j → cap_get (cap_set c i v) j = cap_get c j.
Proof. intros Hne. unfold cap_get, cap_set; simpl. by apply list_lookup_total_insert_ne. Qed.

Lemma cap_set_length c i v : length (caps (cap_set c i v)) = length (caps c).
Proof. apply length_insert. Qed.

Lemma cap_get_set c i j v :
  i < length (caps c) →
  cap_get (cap_set c i v) j = if decide (i = j) then v else cap_get c j.
Proof.
  intros Hi. case_decide as Hij.
  - subst j. by apply cap_get_set_eq.
  - by apply cap_get_set_ne.
Qed.

(** Reads of a chain of stores, all in range. *)
Ltac caps_simpl :=
  repeat (rewrite cap_get_set by (rewrite ?cap_set_length; lia));
  repeat case_decide; try done; try lia.

Lemma cap_get_uint8 c i : caps_wf c → i < SPAPR_CAP_NUM → is_uint8 (cap_get c i).
Proof.
  intros [Hlen Hall] Hi. unfold cap_get.
  eapply Forall_lookup_total_1; [done | lia].
Qed.

Lemma caps_eq c1 c2 :
  length (caps c1) = length (caps c2) →
  (∀ i, i < length (caps c1) → cap_get c1 i = cap_get c2 i) →
  c1 = c2.
Proof.
  destruct c1 as [l1], c2 as [l2]; unfold cap_get; simpl. intros Hlen Hget.
  f_equal. apply list_eq_same_length with (length l1); [done | done |].
  intros i x y Hi Hx Hy.
  specialize (Hget i Hi).
  rewrite (list_lookup_total_correct _ _ _ Hx), (list_lookup_total_correct _ _ _ Hy) in Hget.
  done.
Qed.

Lemma ordinal_cases i :
  i < SPAPR_CAP_NUM ↔ i = SPAPR_CAP_HTM ∨ i = SPAPR_CAP_VSX ∨ i = SPAPR_CAP_DFP.
Proof. unfold SPAPR_CAP_NUM, SPAPR_CAP_HTM, SPAPR_CAP_VSX, SPAPR_CAP_DFP. lia. Qed.

(** ** The default resolver *)

Lemma default_caps_with_cpu_length spapr cs :
  length (caps (default_caps_with_cpu spapr cs)) = length (caps (default_caps (smc spapr))).
Proof.
  unfold default_caps_with_cpu.
  repeat case_match; rewrite ?cap_set_length; done.
Qed.

Lemma default_caps_with_cpu_get spapr cs i :
  length (caps (default_caps (smc spapr))) = SPAPR_CAP_NUM →
  i < SPAPR_CAP_NUM →
  cap_get (default_caps_with_cpu spapr cs) i
  = if ppc_check_compat cs (cap_compat_threshold i) 0 (max_compat_pvr spapr)
    then cap_get (default_caps (smc spapr)) i
    else SPAPR_CAP_OFF.
Proof.
  intros Hlen Hi. unfold default_caps_with_cpu, cap_compat_threshold.
  apply ordinal_cases in Hi as [-> | [-> | ->]]; simpl;
    destruct (ppc_check_compat cs CPU_POWERPC_LOGICAL_2_07 _ _),
             (ppc_check_compat cs CPU_POWERPC_LOGICAL_2_06 _ _); simpl;
    unfold SPAPR_CAP_NUM, SPAPR_CAP_DFP, SPAPR_CAP_VSX, SPAPR_CAP_HTM in *;
    caps_simpl.
Qed.

Lemma default_caps_with_cpu_wf spapr cs :
  caps_wf (default_caps (smc spapr)) → caps_wf (default_caps_with_cpu spapr cs).
Proof.
  intros Hwf. pose proof Hwf as [Hlen Hall]. split.
  - by rewrite default_caps_with_cpu_length.
  - refine (Forall_lookup_total_2 _ _ _). intros i Hi.
    rewrite default_caps_with_cpu_length, Hlen in Hi.
    change (is_uint8 (cap_get (default_caps_with_cpu spapr cs) i)).
    rewrite default_caps_with_cpu_get by done.
    destruct (ppc_check_compat _ _ _ _); [by apply cap_get_uint8 | done].
Qed.

(** C3. For every baseline set and every CPU, [default_caps_with_cpu]
    yields OFF at each capability whose compatibility threshold the CPU
    does not reach, whatever the baseline holds there, and the baseline
    value at every other capability; so the result is nowhere above the
    baseline. *)
Theorem default_caps_with_cpu_narrows spapr cs i :
  caps_wf (default_caps (smc spapr)) →
  i < SPAPR_CAP_NUM →
  let baseline := default_caps (smc spapr) in
  let result := default_caps_with_cpu spapr cs in
  let reached := ppc_check_compat cs (cap_compat_threshold i) 0 (max_compat_pvr spapr) in
  (reached = false → cap_get result i = SPAPR_CAP_OFF) ∧
  (reached = true → cap_get result i = cap_get baseline i) ∧
  (cap_get result i ≤ cap_get baseline i)%Z.
Proof.
  intros Hwf Hi baseline result reached.
  destruct (cap_get_uint8 baseline i Hwf Hi) as [Hlo _].
  destruct Hwf as [Hlen _].
  subst result. rewrite default_caps_with_cpu_get by done. fold reached baseline.
  unfold SPAPR_CAP_OFF. destruct reached; repeat split; intros; (done || lia).
Qed.

(** ** The needed-predicates of the migration records *)

Lemma SPAPR_CAP_MIG_STATE_needed_iff ccap spapr :
  SPAPR_CAP_MIG_STATE_needed ccap spapr = true ↔
  cmd_line_caps spapr !!! ccap = true ∧
  cap_get (eff spapr) ccap ≠ cap_get (def spapr) ccap.
Proof.
  unfold SPAPR_CAP_MIG_STATE_needed.
  rewrite andb_true_iff, negb_true_iff, Z.eqb_neq. done.
Qed.

(** C4. Each capability has one migration record, carrying its byte of
    the migration set, and for every machine state the record's [needed]
    holds exactly when the capability's override flag is set and its
    effective level differs from its default level. *)
Theorem spapr_cap_needed_iff i spapr :
  i < SPAPR_CAP_NUM →
  ∃ vmsd,
    vmsd ∈ [vmstate_spapr_cap_htm; vmstate_spapr_cap_vsx; vmstate_spapr_cap_dfp] ∧
    field vmsd = i ∧
    (needed vmsd spapr = true ↔
     cmd_line_caps spapr !!! i = true ∧
     cap_get (eff spapr) i ≠ cap_get (def spapr) i).
Proof.
  intros Hi. apply ordinal_cases in Hi as [-> | [-> | ->]].
  - exists vmstate_spapr_cap_htm. split; [rewrite !elem_of_cons; auto |]. split; [done |].
    apply SPAPR_CAP_MIG_STATE_needed_iff.
  - exists vmstate_spapr_cap_vsx. split; [rewrite !elem_of_cons; auto |]. split; [done |].
    apply SPAPR_CAP_MIG_STATE_needed_iff.
  - exists vmstate_spapr_cap_dfp. split; [rewrite !elem_of_cons; auto |]. split; [done |].
    apply SPAPR_CAP_MIG_STATE_needed_iff.
Qed.

(** ** pre_load and pre_save *)

(** C8. [spapr_caps_pre_save] makes the migration set a copy of the
    effective set, [spapr_caps_pre_load] makes it a copy of the stored
    default set; both leave the default set, the effective set, the
    override flags and everything else of the machine and of the world as
    they were, and both return 0. *)
Theorem spapr_caps_pre_save_pre_load_frame w :
  (∃ w', spapr_caps_pre_save w = (Returned 0%Z, w') ∧
         mig (spapr w') = eff (spapr w) ∧
         same_but_mig (spapr w) (spapr w') ∧ same_but_spapr w w') ∧
  (∃ w', spapr_caps_pre_load w = (Returned 0%Z, w') ∧
         mig (spapr w') = def (spapr w) ∧
         same_but_mig (spapr w) (spapr w') ∧ same_but_spapr w w').
Proof.
  split; eexists; (split; [reflexivity |]); simpl; unfold same_but_mig, same_but_spapr;
    simpl; done.
Qed.

(** ** The apply callbacks *)

Lemma capability_table_eq :
  capability_table =
  [ {| name := "htm"; description := "Allow Hardware Transactional Memory (HTM)";
       index := SPAPR_CAP_HTM; type := "bool"; apply := cap_htm_apply |};
    {| name := "vsx"; description := "Allow Vector Scalar Extensions (VSX)";
       index := SPAPR_CAP_VSX; type := "bool"; apply := cap_vsx_apply |};
    {| name := "dfp"; description := "Allow Decimal Floating Point (DFP)";
       index := SPAPR_CAP_DFP; type := "bool"; apply := cap_dfp_apply |} ].
Proof. reflexivity. Qed.

(** C9. Asked for level OFF, each of [cap_htm_apply], [cap_vsx_apply] and
    [cap_dfp_apply], and so the callback of every entry of the table,
    returns without setting an error and without touching the world,
    whatever the accelerator and the CPU support and whatever [errp] is. *)
Theorem cap_apply_off_succeeds errp w :
  cap_htm_apply SPAPR_CAP_OFF errp w = (Returned None, w) ∧
  cap_vsx_apply SPAPR_CAP_OFF errp w = (Returned None, w) ∧
  cap_dfp_apply SPAPR_CAP_OFF errp w = (Returned None, w) ∧
  ∀ info, info ∈ capability_table →
          apply info SPAPR_CAP_OFF errp w = (Returned None, w).
Proof.
  assert (cap_htm_apply SPAPR_CAP_OFF errp w = (Returned None, w)) as Hhtm by reflexivity.
  assert (cap_vsx_apply SPAPR_CAP_OFF errp w = (Returned None, w)) as Hvsx by reflexivity.
  assert (cap_dfp_apply SPAPR_CAP_OFF errp w = (Returned None, w)) as Hdfp by reflexivity.
  repeat split; try done.
  intros info. rewrite capability_table_eq, !elem_of_cons, elem_of_nil.
  intros [-> | [-> | [-> | []]]]; done.
Qed.

(** ** The property setter *)

(** C10. When the visitor fails to decode the boolean, [spapr_cap_set_bool]
    does nothing but propagate that error to [errp]: handed back to the
    caller it leaves the whole world as it was, and in every case the
    machine, with all its override flags and effective levels, is the one
    before the call. *)
Theorem spapr_cap_set_bool_decode_error v nm cap errp w local_err :
  visit_type_bool v nm = inl local_err →
  spapr_cap_set_bool v nm cap errp w = error_propagate errp local_err w ∧
  spapr (spapr_cap_set_bool v nm cap errp w).2 = spapr w ∧
  spapr_cap_set_bool v nm cap errp_local w = (Returned (Some local_err), w).
Proof.
  intros Hdecode. unfold spapr_cap_set_bool. rewrite Hdecode.
  split; [done |]. split; [by destruct errp | done].
Qed.

(** ** Reconstruction of the source's set *)

Lemma overlay_get (c : nat → bool) (v : nat → Z) (l : list nat)
    (init : sPAPRCapabilities) (i : nat) :
  (∀ j, j ∈ l → j < length (caps init)) →
  cap_get (overlay c v l init) i
  = if decide (i ∈ l ∧ c i = true) then v i else cap_get init i.
Proof.
  unfold overlay. revert init. induction l as [| j l IH]; intros init Hl.
  - destruct (decide _) as [[Hc _] | _]; [| done]. by apply elem_of_nil in Hc.
  - assert (j < length (caps init)) as Hj by (apply Hl; left).
    cbn [fold_left]. rewrite IH.
    2:{ intros k Hk. destruct (c j); rewrite ?cap_set_length; apply Hl; by right. }
    destruct (decide (i ∈ l ∧ c i = true)) as [[Hin Hc] | Hnot];
      destruct (decide (i ∈ j :: l ∧ c i = true)) as [[Hin' Hc'] | Hnot'];
      try done.
    + destruct Hnot'. split; [by right | done].
    + apply elem_of_cons in Hin' as [-> | Hin']; [| by destruct Hnot].
      rewrite Hc'. by apply cap_get_set_eq.
    + destruct (c j) eqn:Hcj; [| done].
      apply cap_get_set_ne. intros ->. destruct Hnot'. split; [left | done].
Qed.

Lemma overlay_length (c : nat → bool) (v : nat → Z) (l : list nat)
    (init : sPAPRCapabilities) :
  length (caps (overlay c v l init)) = length (caps init).
Proof.
  unfold overlay. revert init. induction l as [| j l IH]; intros init; [done |].
  cbn [fold_left]. rewrite IH. destruct (c j); [apply cap_set_length | done].
Qed.

Lemma post_migration_srccaps_eq spapr cpu :
  post_migration_srccaps spapr cpu =
  overlay (λ j, negb (cap_get (mig spapr) j =? cap_get (def spapr) j)%Z)
    (cap_get (mig spapr)) (seq 0 SPAPR_CAP_NUM) (default_caps_with_cpu spapr cpu).
Proof. reflexivity. Qed.

(** C2. In [spapr_caps_post_migration] the reconstructed source level of
    capability [i] is the migration-set value when that differs from the
    stored default at [i], and the destination's freshly computed default
    for [i] otherwise. *)
Theorem post_migration_srccaps_overlay spapr cpu i :
  caps_wf (default_caps (smc spapr)) →
  i < SPAPR_CAP_NUM →
  (cap_get (mig spapr) i ≠ cap_get (def spapr) i →
   cap_get (post_migration_srccaps spapr cpu) i = cap_get (mig spapr) i) ∧
  (cap_get (mig spapr) i = cap_get (def spapr) i →
   cap_get (post_migration_srccaps spapr cpu) i
   = cap_get (default_caps_with_cpu spapr cpu) i).
Proof.
  intros [Hlen _] Hi. rewrite post_migration_srccaps_eq.
  rewrite (overlay_get (λ j, negb (cap_get (mig spapr) j =? cap_get (def spapr) j)%Z)
             (cap_get (mig spapr))).
  2:{ intros j Hj%elem_of_seq. rewrite default_caps_with_cpu_length, Hlen. lia. }
  split; intros Hmd; destruct (decide _) as [[_ Hc] | Hc]; try done.
  - destruct Hc. split; [apply elem_of_seq; lia |].
    by apply negb_true_iff, Z.eqb_neq.
  - apply negb_true_iff, Z.eqb_neq in Hc. done.
Qed.

(** ** The comparison of post_migration *)

Lemma post_migration_compare_run srccaps dstcaps i ok w :
  post_migration_compare srccaps dstcaps i ok w =
  (Returned (ok && negb (cap_get srccaps i >? cap_get dstcaps i)%Z),
   add_events (migration_reports srccaps dstcaps i) w).
Proof.
  unfold post_migration_compare, migration_reports.
  destruct (cap_get srccaps i >? cap_get dstcaps i)%Z,
           (cap_get srccaps i <? cap_get dstcaps i)%Z; run_M; simpl;
    rewrite ?andb_false_r, ?andb_true_r, ?add_events_app, ?add_events_nil; done.
Qed.

Lemma post_migration_loop srccaps dstcaps l ok w :
  for_each l (post_migration_compare srccaps dstcaps) ok w =
  (Returned (ok && forallb (λ i, negb (cap_get srccaps i >? cap_get dstcaps i)%Z) l),
   add_events (flat_map (migration_reports srccaps dstcaps) l) w).
Proof.
  revert ok w. induction l as [| i l IH]; intros ok w.
  - simpl. by rewrite andb_true_r, add_events_nil.
  - cbn [for_each forallb flat_map]. run_M.
    rewrite post_migration_compare_run, IH, add_events_app, andb_assoc. done.
Qed.

Lemma migration_reports_elem srccaps dstcaps l e :
  e ∈ flat_map (migration_reports srccaps dstcaps) l ↔
  ∃ i, i ∈ l ∧ e ∈ migration_reports srccaps dstcaps i.
Proof.
  setoid_rewrite list_elem_of_In. apply in_flat_map.
Qed.

Lemma migration_reports_error srccaps dstcaps i msg :
  EvErrorReport msg ∈ migration_reports srccaps dstcaps i ↔
  (cap_get srccaps i > cap_get dstcaps i)%Z ∧
  msg = higher_level_msg (name (capability_table !!! i))
          (cap_get srccaps i) (cap_get dstcaps i).
Proof.
  unfold migration_reports.
  destruct (Z.gtb_spec (cap_get srccaps i) (cap_get dstcaps i)) as [Hgt | Hle],
           (Z.ltb_spec (cap_get srccaps i) (cap_get dstcaps i)) as [Hlt | Hge];
    rewrite elem_of_app, ?list_elem_of_singleton, ?elem_of_nil;
    (split; [intros [He | He] | intros [? ->]]);
    simplify_eq; try done; try lia; auto; split; (done || lia).
Qed.

Lemma migration_reports_warn srccaps dstcaps i msg :
  EvWarnReport msg ∈ migration_reports srccaps dstcaps i ↔
  (cap_get srccaps i < cap_get dstcaps i)%Z ∧
  msg = lower_level_msg (name (capability_table !!! i))
          (cap_get srccaps i) (cap_get dstcaps i).
Proof.
  unfold migration_reports.
  destruct (Z.gtb_spec (cap_get srccaps i) (cap_get dstcaps i)) as [Hgt | Hle],
           (Z.ltb_spec (cap_get srccaps i) (cap_get dstcaps i)) as [Hlt | Hge];
    rewrite elem_of_app, ?list_elem_of_singleton, ?elem_of_nil;
    (split; [intros [He | He] | intros [? ->]]);
    simplify_eq; try done; try lia; auto; split; (done || lia).
Qed.


Lemma forallb_pointwise {A} (f g : A → bool) (l : list A) :
  (∀ x, f x = g x) → forallb f l = forallb g l.
Proof. intros Hfg. induction l as [| a l IH]; [done |]. cbn. by rewrite Hfg, IH. Qed.

Lemma forallb_false_iff {A} (f : A → bool) (l : list A) :
  forallb f l = false ↔ ∃ x, In x l ∧ f x = false.
Proof.
  induction l as [| a l IH]; simpl.
  - split; [discriminate | intros (x & [] & _)].
  - rewrite andb_false_iff, IH. split.
    + intros [Ha | (x & Hx & Hf)]; eauto.
    + intros (x & [<- | Hx] & Hf); eauto.
Qed.

Lemma no_higher_level_iff srccaps dstcaps n :
  forallb (λ i, negb (cap_get srccaps i >? cap_get dstcaps i)%Z) (seq 0 n) = true ↔
  ∀ i, i < n → (cap_get srccaps i ≤ cap_get dstcaps i)%Z.
Proof.
  rewrite forallb_forall. setoid_rewrite in_seq. setoid_rewrite negb_true_iff.
  split; intros Hall i Hi.
  - specialize (Hall i). destruct (Z.gtb_spec (cap_get srccaps i) (cap_get dstcaps i));
      [| lia]. discriminate Hall. lia.
  - destruct (Z.gtb_spec (cap_get srccaps i) (cap_get dstcaps i)) as [Hgt | Hle];
      [| done]. specialize (Hall i). lia.
Qed.

Lemma some_higher_level_iff srccaps dstcaps n :
  forallb (λ i, negb (cap_get srccaps i >? cap_get dstcaps i)%Z) (seq 0 n) = false ↔
  ∃ i, i < n ∧ (cap_get srccaps i > cap_get dstcaps i)%Z.
Proof.
  rewrite forallb_false_iff. setoid_rewrite in_seq. setoid_rewrite negb_false_iff.
  split; intros (i & Hi & Hgt); exists i; (split; [lia |]).
  - destruct (Z.gtb_spec (cap_get srccaps i) (cap_get dstcaps i)); [lia | done].
  - destruct (Z.gtb_spec (cap_get srccaps i) (cap_get dstcaps i)); [done | lia].
Qed.

Lemma spapr_caps_post_migration_run w :
  let srccaps := post_migration_srccaps (spapr w) (first_cpu w) in
  let dstcaps := eff (spapr w) in
  spapr_caps_post_migration w =
  (Returned (if forallb (λ i, negb (cap_get srccaps i >? cap_get dstcaps i)%Z)
                  (seq 0 SPAPR_CAP_NUM)
             then 0 else - EINVAL)%Z,
   add_events (flat_map (migration_reports srccaps dstcaps) (seq 0 SPAPR_CAP_NUM)) w).
Proof.
  intros srccaps dstcaps. unfold spapr_caps_post_migration, for_range. run_M.
  fold srccaps dstcaps. by rewrite post_migration_loop.
Qed.

(** *** The text of the reports *)

Lemma pretty_N_char_not_paren d : pretty_N_char d ≠ ")"%char.
Proof. unfold pretty_N_char. repeat case_match; discriminate. Qed.

Lemma pretty_N_go_free x s :
  string_free_of ")" s → string_free_of ")" (pretty_N_go x s).
Proof.
  revert s. induction (N.lt_wf_0 x) as [x _ IH]; intros s Hs.
  destruct (decide (x = 0)%N) as [-> | Hx].
  - by rewrite pretty_N_go_0.
  - rewrite pretty_N_go_step by lia. apply IH.
    + apply N.div_lt; lia.
    + split; [apply pretty_N_char_not_paren | done].
Qed.

(** A decimal numeral has no closing parenthesis in it. *)
Lemma pretty_Z_free (z : Z) : string_free_of ")" (pretty z).
Proof.
  assert (∀ p : positive, string_free_of ")" (pretty p)) as Hpos.
  { intros p. unfold pretty, pretty_positive, pretty, pretty_N.
    destruct (decide _); [done |]. by apply pretty_N_go_free. }
  destruct z as [| p | p]; unfold pretty, pretty_Z.
  - done.
  - apply Hpos.
  - cbn. split; [discriminate | apply Hpos].
Qed.

Lemma append_paren_inj s1 s2 t1 t2 :
  string_free_of ")" s1 → string_free_of ")" s2 →
  s1 +:+ String ")" t1 = s2 +:+ String ")" t2 → s1 = s2 ∧ t1 = t2.
Proof.
  revert s2. induction s1 as [| a s1 IH]; intros [| b s2] H1 H2 Heq; cbn in *.
  - by injection Heq as ->.
  - injection Heq as <- _. by destruct H2.
  - injection Heq as -> _. by destruct H1.
  - injection Heq as -> Heq. destruct H1 as [_ H1], H2 as [_ H2].
    destruct (IH s2 H1 H2 Heq) as [-> ->]. done.
Qed.

(** The two numerals can be read back from the tail of a report. *)
Lemma report_levels_inj (a b c d : Z) :
  pretty a +:+ ") in incoming stream than on destination (" +:+ pretty b +:+ ")"
  = pretty c +:+ ") in incoming stream than on destination (" +:+ pretty d +:+ ")" →
  a = c ∧ b = d.
Proof.
  intros Heq.
  apply append_paren_inj in Heq as [Hac Heq]; [| apply pretty_Z_free ..].
  apply (inj pretty) in Hac as ->. split; [done |].
  cbn [String.append] in Heq. simplify_eq.
  match goal with
  | H : _ +:+ _ = _ +:+ _ |- _ =>
      apply append_paren_inj in H as [Hbd _]; [| apply pretty_Z_free ..]
  end.
  by apply (inj pretty) in Hbd.
Qed.

Lemma higher_level_msg_inj i j a b c d :
  i < SPAPR_CAP_NUM → j < SPAPR_CAP_NUM →
  higher_level_msg (name (capability_table !!! i)) a b
  = higher_level_msg (name (capability_table !!! j)) c d →
  i = j ∧ a = c ∧ b = d.
Proof.
  intros Hi Hj. rewrite capability_table_eq. unfold higher_level_msg.
  apply ordinal_cases in Hi as [-> | [-> | ->]];
    apply ordinal_cases in Hj as [-> | [-> | ->]];
    cbn [lookup_total list_lookup_total name String.append
           SPAPR_CAP_HTM SPAPR_CAP_VSX SPAPR_CAP_DFP];
    intros Heq; try discriminate Heq;
    (split; [done |]); simplify_eq;
    match goal with H : _ +:+ _ = _ +:+ _ |- _ => exact (report_levels_inj _ _ _ _ H) end.
Qed.

Lemma lower_level_msg_inj i j a b c d :
  i < SPAPR_CAP_NUM → j < SPAPR_CAP_NUM →
  lower_level_msg (name (capability_table !!! i)) a b
  = lower_level_msg (name (capability_table !!! j)) c d →
  i = j ∧ a = c ∧ b = d.
Proof.
  intros Hi Hj. rewrite capability_table_eq. unfold lower_level_msg.
  apply ordinal_cases in Hi as [-> | [-> | ->]];
    apply ordinal_cases in Hj as [-> | [-> | ->]];
    cbn [lookup_total list_lookup_total name String.append
           SPAPR_CAP_HTM SPAPR_CAP_VSX SPAPR_CAP_DFP];
    intros Heq; try discriminate Heq;
    (split; [done |]); simplify_eq;
    match goal with H : _ +:+ _ = _ +:+ _ |- _ => exact (report_levels_inj _ _ _ _ H) end.
Qed.

(** C1. On every world [spapr_caps_post_migration] returns, either 0 or
    -EINVAL.  It returns -EINVAL exactly when some capability's
    reconstructed source level is above the destination's effective
    level, and 0 exactly when none is.  The events it adds are, capability
    by capability in table order, one error report where the source
    level is above and one warning where it is below, and nothing else.
    The error report of htm, vsx or dfp reads cap-htm, cap-vsx or cap-dfp,
    then "higher level", the source level in decimal and the destination
    level in decimal (the warning reads "lower level"), and the
    capability and both levels can be read back from the text.  The
    machine is left as it was: no level changes, and only the reports are
    added to the world. *)
Theorem spapr_caps_post_migration_verdict w :
  let srccaps := post_migration_srccaps (spapr w) (first_cpu w) in
  let dstcaps := eff (spapr w) in
  let src := cap_get srccaps in
  let dst := cap_get dstcaps in
  let nm := λ i : nat, match i with 0 => "htm" | 1 => "vsx" | _ => "dfp" end in
  let higher := λ (i : nat) (a b : Z),
    "cap-" +:+ nm i +:+ " higher level (" +:+ pretty a +:+
    ") in incoming stream than on destination (" +:+ pretty b +:+ ")" in
  let lower := λ (i : nat) (a b : Z),
    "cap-" +:+ nm i +:+ " lower level (" +:+ pretty a +:+
    ") in incoming stream than on destination (" +:+ pretty b +:+ ")" in
  ∃ ret new w',
    spapr_caps_post_migration w = (Returned ret, w') ∧
    w' = add_events new w ∧
    spapr w' = spapr w ∧
    (ret = 0 ∨ ret = - EINVAL)%Z ∧
    (ret = (- EINVAL)%Z ↔ ∃ i, i < SPAPR_CAP_NUM ∧ (src i > dst i)%Z) ∧
    (ret = 0%Z ↔ ∀ i, i < SPAPR_CAP_NUM → (src i ≤ dst i)%Z) ∧
    (∀ msg, EvErrorReport msg ∈ new ↔
            ∃ i, i < SPAPR_CAP_NUM ∧ (src i > dst i)%Z ∧
                 msg = higher i (src i) (dst i)) ∧
    (∀ msg, EvWarnReport msg ∈ new ↔
            ∃ i, i < SPAPR_CAP_NUM ∧ (src i < dst i)%Z ∧
                 msg = lower i (src i) (dst i)) ∧
    apply_calls new = [] ∧
    new = flat_map
            (λ i, (if (src i >? dst i)%Z
                   then [EvErrorReport (higher i (src i) (dst i))] else []) ++
                  (if (src i <? dst i)%Z
                   then [EvWarnReport (lower i (src i) (dst i))] else []))
            (seq 0 SPAPR_CAP_NUM) ∧
    (∀ i j a b c d, i < SPAPR_CAP_NUM → j < SPAPR_CAP_NUM →
       higher i a b = higher j c d → i = j ∧ a = c ∧ b = d) ∧
    (∀ i j a b c d, i < SPAPR_CAP_NUM → j < SPAPR_CAP_NUM →
       lower i a b = lower j c d → i = j ∧ a = c ∧ b = d).
Proof.
  intros srccaps dstcaps src dst nm higher lower.
  pose proof (no_higher_level_iff srccaps dstcaps SPAPR_CAP_NUM) as Hok.
  pose proof (some_higher_level_iff srccaps dstcaps SPAPR_CAP_NUM) as Hsome.
  assert (∀ i a b, i < SPAPR_CAP_NUM →
            higher_level_msg (name (capability_table !!! i)) a b = higher i a b)
    as Hhigher.
  { intros i a b Hi. rewrite capability_table_eq.
    by apply ordinal_cases in Hi as [-> | [-> | ->]]. }
  assert (∀ i a b, i < SPAPR_CAP_NUM →
            lower_level_msg (name (capability_table !!! i)) a b = lower i a b)
    as Hlower.
  { intros i a b Hi. rewrite capability_table_eq.
    by apply ordinal_cases in Hi as [-> | [-> | ->]]. }
  exists (if forallb (λ i, negb (src i >? dst i)%Z) (seq 0 SPAPR_CAP_NUM)
          then 0 else - EINVAL)%Z,
         (flat_map (migration_reports srccaps dstcaps) (seq 0 SPAPR_CAP_NUM)),
         (add_events (flat_map (migration_reports srccaps dstcaps) (seq 0 SPAPR_CAP_NUM)) w).
  split; [apply spapr_caps_post_migration_run |].
  split; [done |]. split; [done |].
  assert (∀ P : nat → Prop,
            (∃ i, i ∈ seq 0 SPAPR_CAP_NUM ∧ P i) ↔ (∃ i, i < SPAPR_CAP_NUM ∧ P i))
    as Hseq.
  { intros P. split; intros (i & Hi & HP); exists i; (split; [| done]).
    - apply elem_of_seq in Hi. lia.
    - apply elem_of_seq. lia. }
  split; [destruct (forallb _ _); auto |].
  split.
  { split.
    - intros Hret. apply Hsome. by destruct (forallb _ _).
    - intros Hex. apply Hsome in Hex. subst src dst. by rewrite Hex. }
  split.
  { split.
    - intros Hret. apply Hok. by destruct (forallb _ _).
    - intros Hall. apply Hok in Hall. subst src dst. by rewrite Hall. }
  split.
  { intros msg. rewrite migration_reports_elem.
    setoid_rewrite migration_reports_error. rewrite Hseq.
    split; intros (i & Hi & Hgt & ->); exists i; by rewrite Hhigher. }
  split.
  { intros msg. rewrite migration_reports_elem.
    setoid_rewrite migration_reports_warn. rewrite Hseq.
    split; intros (i & Hi & Hlt & ->); exists i; by rewrite Hlower. }
  split.
  { clear Hok Hsome Hseq.
    induction (seq 0 SPAPR_CAP_NUM) as [| i l IH]; [done |].
    cbn [flat_map]. rewrite apply_calls_app, IH, app_nil_r.
    unfold migration_reports. by repeat case_match. }
  split.
  { assert (∀ l, (∀ i, i ∈ l → i < SPAPR_CAP_NUM) →
              flat_map (migration_reports srccaps dstcaps) l
              = flat_map
                  (λ i, (if (src i >? dst i)%Z
                         then [EvErrorReport (higher i (src i) (dst i))] else []) ++
                        (if (src i <? dst i)%Z
                         then [EvWarnReport (lower i (src i) (dst i))] else [])) l)
      as Hflat.
    { intros l. induction l as [| i l IH]; intros Hl; [done |].
      cbn [flat_map]. rewrite IH by (intros j Hj; apply Hl; by right).
      unfold migration_reports.
      rewrite Hhigher, Hlower by (apply Hl; left). done. }
    apply Hflat. intros i Hi%elem_of_seq. lia. }
  split.
  - intros i j a b c d Hi Hj. rewrite <- !Hhigher by done.
    by apply higher_level_msg_inj.
  - intros i j a b c d Hi Hj. rewrite <- !Hlower by done.
    by apply lower_level_msg_inj.
Qed.

(** ** Reset: storing the defaults *)

Lemma reset_store_default_run d i w :
  reset_store_default d i tt w =
  (Returned tt,
   set_spapr
     (set_eff (overlay (λ j, negb (cmd_line_caps (spapr w) !!! j)) (cap_get d) [i]
                 (eff (spapr w)))
        (set_def (overlay (λ _, true) (cap_get d) [i] (def (spapr w))) (spapr w)))
     w).
Proof.
  unfold reset_store_default, overlay. run_M. cbn.
  destruct (cmd_line_caps (spapr w) !!! i); cbn; [| done].
  by destruct w as [[] ].
Qed.

Lemma reset_store_loop d l w :
  for_each l (reset_store_default d) tt w =
  (Returned tt,
   set_spapr
     (set_eff (overlay (λ j, negb (cmd_line_caps (spapr w) !!! j)) (cap_get d) l
                 (eff (spapr w)))
        (set_def (overlay (λ _, true) (cap_get d) l (def (spapr w))) (spapr w)))
     w).
Proof.
  revert w. induction l as [| i l IH]; intros w.
  - by destruct w as [[] ].
  - rewrite for_each_cons.
    erewrite bind_returned by apply reset_store_default_run.
    rewrite IH. done.
Qed.

(** With arrays of the declared size the first loop leaves [def] equal to
    the computed defaults. *)
Lemma overlay_all d init :
  length (caps d) = SPAPR_CAP_NUM → length (caps init) = SPAPR_CAP_NUM →
  overlay (λ _, true) (cap_get d) (seq 0 SPAPR_CAP_NUM) init = d.
Proof.
  intros Hd Hinit. apply caps_eq.
  - by rewrite overlay_length, Hd.
  - rewrite overlay_length. intros i Hi. rewrite overlay_get.
    + destruct (decide _) as [_ | Hn]; [done |]. destruct Hn.
      split; [apply elem_of_seq; lia | done].
    + intros j Hj%elem_of_seq. lia.
Qed.

(** ** Reset: the apply calls *)

(** With the fatal destination a callback comes back having changed
    nothing, or reports and exits, or aborts. *)
Lemma apply_fatal_run i val w :
  apply (capability_table !!! i) val error_fatal w = (Returned None, w) ∨
  (∃ msg, apply (capability_table !!! i) val error_fatal w
          = (Exited 1, add_events [EvErrorReport msg] w)) ∨
  apply (capability_table !!! i) val error_fatal w = (Aborted, w).
Proof.
  rewrite capability_table_eq.
  destruct i as [| [| [| i]]]; cbn [lookup_total list_lookup_total apply].
  - unfold cap_htm_apply. run_M.
    destruct (val =? 0)%Z, (tcg_enabled w), (kvm_enabled w), (kvmppc_has_cap_htm w);
      cbn; eauto.
  - unfold cap_vsx_apply. run_M.
    destruct (val =? 0)%Z, (Z.land (insns_flags (first_cpu w)) PPC_ALTIVEC =? 0)%Z,
             (Z.land (insns_flags2 (first_cpu w)) PPC2_VSX =? 0)%Z; cbn; eauto.
  - unfold cap_dfp_apply. run_M.
    destruct (val =? 0)%Z, (Z.land (insns_flags2 (first_cpu w)) PPC2_DFP =? 0)%Z;
      cbn; eauto.
  - right; right. reflexivity.
Qed.

(** Whether it comes back depends on the level and on what the callbacks
    read, not on the machine or on the events so far. *)
Lemma apply_returns_same_env i val w w' :
  same_env w w' → apply_returns i val w' = apply_returns i val w.
Proof.
  intros (Hcpu & Htcg & Hkvm & Hhtm). unfold apply_returns.
  rewrite capability_table_eq.
  destruct i as [| [| [| i]]]; cbn [lookup_total list_lookup_total apply].
  - unfold cap_htm_apply. destruct (val =? 0)%Z; run_M; [done |].
    rewrite Htcg, Hkvm, Hhtm.
    destruct (tcg_enabled w), (kvm_enabled w), (kvmppc_has_cap_htm w); done.
  - unfold cap_vsx_apply. run_M. rewrite Hcpu. destruct (val =? 0)%Z; [done |].
    destruct (Z.land (insns_flags (first_cpu w)) PPC_ALTIVEC =? 0)%Z,
             (Z.land (insns_flags2 (first_cpu w)) PPC2_VSX =? 0)%Z; done.
  - unfold cap_dfp_apply. run_M. rewrite Hcpu. destruct (val =? 0)%Z; [done |].
    destruct (Z.land (insns_flags2 (first_cpu w)) PPC2_DFP =? 0)%Z; done.
  - done.
Qed.


Lemma apply_calls_apply_events c l : apply_calls (apply_events c l) = apply_pairs c l.
Proof.
  unfold apply_calls, apply_events, apply_pairs.
  induction l as [| i l IH]; [done |]. cbn. by rewrite IH.
Qed.

Lemma reset_apply_run i w :
  let v := cap_get (eff (spapr w)) i in
  if apply_returns i v w
  then reset_apply i tt w = (Returned tt, add_events [EvApply i v] w)
  else ∃ r extra,
         reset_apply i tt w = (r, add_events (EvApply i v :: extra) w) ∧
         (∀ a, r ≠ Returned a) ∧ apply_calls extra = [].
Proof.
  intros v.
  rewrite (apply_returns_same_env i v (add_events [EvApply i v] w) w) by done.
  unfold apply_returns, reset_apply. run_M. fold v.
  destruct (apply_fatal_run i v (add_events [EvApply i v] w))
    as [-> | [[msg ->] | ->]].
  - done.
  - exists (Exited 1), [EvErrorReport msg]. by rewrite add_events_app.
  - exists Aborted, []. done.
Qed.

Lemma reset_apply_loop l w :
  let c := eff (spapr w) in
  if forallb (λ i, apply_returns i (cap_get c i) w) l
  then for_each l reset_apply tt w = (Returned tt, add_events (apply_events c l) w)
  else ∃ r k extra,
         for_each l reset_apply tt w
         = (r, add_events (apply_events c (take (S k) l) ++ extra) w) ∧
         (∀ a, r ≠ Returned a) ∧ apply_calls extra = [].
Proof.
  revert w. induction l as [| i l IH]; intros w c.
  - cbn. by rewrite add_events_nil.
  - rewrite for_each_cons. cbn [forallb].
    pose proof (reset_apply_run i w) as Hstep. cbv zeta in Hstep. fold c in Hstep.
    destruct (apply_returns i (cap_get c i) w); cbn [andb].
    + erewrite bind_returned by exact Hstep.
      set (w1 := add_events [EvApply i (cap_get c i)] w).
      specialize (IH w1). cbv zeta in IH.
      change (eff (spapr w1)) with c in IH.
      rewrite (forallb_pointwise (λ j, apply_returns j (cap_get c j) w1)
                 (λ j, apply_returns j (cap_get c j) w)) in IH
        by (intros j; by apply apply_returns_same_env).
      destruct (forallb _ l).
      * rewrite IH. unfold w1. by rewrite add_events_app.
      * destruct IH as (r & k & extra & -> & Hr & Hextra).
        exists r, (S k), extra. unfold w1. by rewrite add_events_app.
    + destruct Hstep as (r & extra & Hrun & Hr & Hextra).
      erewrite bind_not_returned by (exact Hrun || exact Hr).
      eexists _, 0, extra. cbn [take]. split; [done |]. split; [| done].
      by destruct r.
Qed.


(** ** Reset as a whole *)

Lemma spapr_caps_reset_run w :
  let s1 := reset_machine (spapr w) (first_cpu w) in
  if forallb (λ i, apply_returns i (cap_get (eff s1) i) w) (seq 0 SPAPR_CAP_NUM)
  then spapr_caps_reset w
       = (Returned tt,
          add_events (apply_events (eff s1) (seq 0 SPAPR_CAP_NUM)) (set_spapr s1 w))
  else ∃ r k extra,
         spapr_caps_reset w
         = (r, add_events
                 (apply_events (eff s1) (take (S k) (seq 0 SPAPR_CAP_NUM)) ++ extra)
                 (set_spapr s1 w)) ∧
         (∀ a, r ≠ Returned a) ∧ apply_calls extra = [].
Proof.
  intros s1. unfold spapr_caps_reset, for_range.
  erewrite bind_returned by reflexivity.
  erewrite bind_returned by apply reset_store_loop.
  fold (reset_machine (spapr w) (first_cpu w)). fold s1.
  pose proof (reset_apply_loop (seq 0 SPAPR_CAP_NUM) (set_spapr s1 w)) as Hloop.
  cbv zeta in Hloop. change (eff (spapr (set_spapr s1 w))) with (eff s1) in Hloop.
  rewrite (forallb_pointwise (λ i, apply_returns i (cap_get (eff s1) i) (set_spapr s1 w))
             (λ i, apply_returns i (cap_get (eff s1) i) w)) in Hloop
    by (intros j; by apply apply_returns_same_env).
  exact Hloop.
Qed.

Lemma reset_machine_def s cpu :
  spapr_wf s → def (reset_machine s cpu) = default_caps_with_cpu s cpu.
Proof.
  intros ([Hbase _] & _ & [Hdef _] & _). unfold reset_machine. cbn [def set_eff set_def].
  apply overlay_all; [| done]. by rewrite default_caps_with_cpu_length.
Qed.

Lemma reset_machine_eff s cpu i :
  spapr_wf s → i < SPAPR_CAP_NUM →
  cap_get (eff (reset_machine s cpu)) i
  = if (cmd_line_caps s !!! i : bool) then cap_get (eff s) i
    else cap_get (default_caps_with_cpu s cpu) i.
Proof.
  intros (_ & _ & _ & [Heff _] & _) Hi. unfold reset_machine. cbn [eff set_eff].
  rewrite overlay_get by (intros j Hj%elem_of_seq; lia).
  destruct (cmd_line_caps s !!! i); destruct (decide _) as [[_ Hc] | Hn]; try done.
  destruct Hn. split; [apply elem_of_seq; lia | done].
Qed.

Lemma reset_machine_invariant s cpu : spapr_wf s → caps_invariant (reset_machine s cpu).
Proof.
  intros Hwf i Hi Hcmd. change (cmd_line_caps (reset_machine s cpu)) with (cmd_line_caps s) in Hcmd.
  by rewrite reset_machine_eff, Hcmd, reset_machine_def.
Qed.

Lemma reset_machine_wf s cpu : spapr_wf s → spapr_wf (reset_machine s cpu).
Proof.
  intros Hwf. pose proof Hwf as (Hbase & Hcmd & Hdef & Heff & Hmig).
  split; [done |]. split; [done |]. split; [| split; [| done]].
  - rewrite reset_machine_def by done. by apply default_caps_with_cpu_wf.
  - split.
    + unfold reset_machine. cbn [eff set_eff]. rewrite overlay_length. apply Heff.
    + refine (Forall_lookup_total_2 _ _ _). intros i Hi.
      assert (i < SPAPR_CAP_NUM) as Hi'.
      { unfold reset_machine in Hi. cbn [eff set_eff] in Hi. rewrite overlay_length in Hi.
        destruct Heff as [<- _]. done. }
      change (is_uint8 (cap_get (eff (reset_machine s cpu)) i)).
      rewrite reset_machine_eff by done.
      destruct (cmd_line_caps s !!! i); apply cap_get_uint8; try done.
      by apply default_caps_with_cpu_wf.
Qed.


Lemma reset_apply_all_iff c w :
  forallb (λ i, apply_returns i (cap_get c i) w) (seq 0 SPAPR_CAP_NUM) = true ↔
  ∀ i, i < SPAPR_CAP_NUM → apply_returns i (cap_get c i) w = true.
Proof.
  rewrite forallb_forall. setoid_rewrite in_seq.
  split; intros Hall i Hi; apply Hall; lia.
Qed.

(** C5. From a machine whose arrays have their declared size,
    [spapr_caps_reset] leaves the stored default set equal to the freshly
    computed defaults, each effective level equal to that default where
    the override flag is false and as it was where the flag is true, and
    the flags as they were.  When it returns it has called the callbacks
    of HTM, VSX and DFP once each, in this order, each with the
    capability's effective level; it returns exactly when each of these
    calls comes back, and otherwise the calls made are a prefix of that
    sequence, ended by the fatal one. *)
Theorem spapr_caps_reset_effect w :
  spapr_wf (spapr w) →
  ∃ r w' new,
    spapr_caps_reset w = (r, w') ∧
    trace w' = trace w ++ new ∧
    def (spapr w') = default_caps_with_cpu (spapr w) (first_cpu w) ∧
    (∀ i, i < SPAPR_CAP_NUM →
          cap_get (eff (spapr w')) i
          = if (cmd_line_caps (spapr w) !!! i : bool)
            then cap_get (eff (spapr w)) i
            else cap_get (def (spapr w')) i) ∧
    cmd_line_caps (spapr w') = cmd_line_caps (spapr w) ∧
    (let calls := [ (SPAPR_CAP_HTM, cap_get (eff (spapr w')) SPAPR_CAP_HTM);
                    (SPAPR_CAP_VSX, cap_get (eff (spapr w')) SPAPR_CAP_VSX);
                    (SPAPR_CAP_DFP, cap_get (eff (spapr w')) SPAPR_CAP_DFP) ] in
     apply_calls new `prefix_of` calls ∧
     (r = Returned tt → apply_calls new = calls)) ∧
    (r = Returned tt ↔
     ∀ i, i < SPAPR_CAP_NUM → apply_returns i (cap_get (eff (spapr w')) i) w = true).
Proof.
  intros Hwf.
  pose proof (spapr_caps_reset_run w) as Hrun. cbv zeta in Hrun.
  pose proof (reset_machine_def _ (first_cpu w) Hwf) as Hdef.
  pose proof (λ i, reset_machine_eff _ (first_cpu w) i Hwf) as Heff.
  set (s1 := reset_machine (spapr w) (first_cpu w)) in *.
  pose proof (reset_apply_all_iff (eff s1) w) as Hall.
  destruct (forallb _ _).
  - exists (Returned tt), (add_events (apply_events (eff s1) (seq 0 SPAPR_CAP_NUM))
                              (set_spapr s1 w)),
      (apply_events (eff s1) (seq 0 SPAPR_CAP_NUM)).
    cbn [spapr trace add_events set_spapr].
    split; [done |]. split; [done |]. split; [done |].
    split; [intros i Hi; by rewrite Heff, Hdef |]. split; [done |].
    rewrite apply_calls_apply_events. split; [split; [done | done] |].
    split; [intros _; by apply Hall | done].
  - destruct Hrun as (r & k & extra & Hrun & Hr & Hextra).
    exists r, (add_events (apply_events (eff s1) (take (S k) (seq 0 SPAPR_CAP_NUM)) ++ extra)
                 (set_spapr s1 w)),
      (apply_events (eff s1) (take (S k) (seq 0 SPAPR_CAP_NUM)) ++ extra).
    cbn [spapr trace add_events set_spapr].
    split; [done |]. split; [done |]. split; [done |].
    split; [intros i Hi; by rewrite Heff, Hdef |]. split; [done |].
    rewrite apply_calls_app, apply_calls_apply_events, Hextra, app_nil_r.
    split; [split |].
    + change ([(SPAPR_CAP_HTM, cap_get (eff s1) SPAPR_CAP_HTM);
               (SPAPR_CAP_VSX, cap_get (eff s1) SPAPR_CAP_VSX);
               (SPAPR_CAP_DFP, cap_get (eff s1) SPAPR_CAP_DFP)])
        with (apply_pairs (eff s1) (seq 0 SPAPR_CAP_NUM)).
      unfold apply_pairs. rewrite fmap_take. apply prefix_take.
    + intros ->. by destruct (Hr tt).
    + split; [intros ->; by destruct (Hr tt) |].
      intros Hret. apply Hall in Hret. discriminate Hret.
Qed.


(** ** Reset twice *)

Lemma overlay_idem c v l init :
  (∀ j, j ∈ l → j < length (caps init)) →
  overlay c v l (overlay c v l init) = overlay c v l init.
Proof.
  intros Hl. apply caps_eq.
  - by rewrite !overlay_length.
  - intros i _. rewrite (overlay_get c v l (overlay c v l init)).
    + destruct (decide _) as [Hin | _]; [| done].
      rewrite overlay_get by done. by rewrite decide_True.
    + intros j Hj. rewrite overlay_length. by apply Hl.
Qed.

Lemma default_caps_with_cpu_inputs s s' cpu :
  smc s' = smc s → max_compat_pvr s' = max_compat_pvr s →
  default_caps_with_cpu s' cpu = default_caps_with_cpu s cpu.
Proof. intros Hsmc Hmax. unfold default_caps_with_cpu. by rewrite Hsmc, Hmax. Qed.

Lemma reset_machine_again s cpu s' :
  spapr_wf s →
  same_but_mig (reset_machine s cpu) s' →
  def (reset_machine s' cpu) = def (reset_machine s cpu) ∧
  eff (reset_machine s' cpu) = eff (reset_machine s cpu).
Proof.
  intros (_ & _ & [Hdef _] & [Heff _] & _) (Hd & He & Hc & Hsmc & Hmax).
  assert (default_caps_with_cpu s' cpu = default_caps_with_cpu s cpu) as Hdc
    by (by apply default_caps_with_cpu_inputs).
  unfold reset_machine at 1 3. cbn [def eff set_def set_eff].
  rewrite Hd, He, Hc, Hdc. unfold reset_machine. cbn [def eff cmd_line_caps set_def set_eff].
  split; apply overlay_idem; intros j Hj%elem_of_seq; lia.
Qed.

(** C6. After a reset that returned, with the override flags, the class
    baseline, the compatibility ceiling, the CPU and the accelerator as
    that reset left them (the migration set and the events may have moved
    on), a second reset returns too, leaves the default set and the
    effective set as the first one left them, and makes the same apply
    calls with the same levels. *)
Theorem spapr_caps_reset_idempotent w w1 w1' :
  spapr_wf (spapr w) →
  spapr_caps_reset w = (Returned tt, w1) →
  same_but_mig (spapr w1) (spapr w1') →
  same_env w1 w1' →
  ∃ w2 calls,
    spapr_caps_reset w1' = (Returned tt, w2) ∧
    def (spapr w2) = def (spapr w1) ∧
    eff (spapr w2) = eff (spapr w1) ∧
    cmd_line_caps (spapr w2) = cmd_line_caps (spapr w1) ∧
    trace w1 = trace w ++ calls ∧
    trace w2 = trace w1' ++ calls ∧
    apply_calls calls = apply_pairs (eff (spapr w1)) (seq 0 SPAPR_CAP_NUM).
Proof.
  intros Hwf Hfirst Hsame Henv.
  pose proof (spapr_caps_reset_run w) as Hrun. cbv zeta in Hrun.
  set (s1 := reset_machine (spapr w) (first_cpu w)) in *.
  destruct (forallb _ _) eqn:Hall.
  2:{ destruct Hrun as (r & k & extra & Hrun & Hr & _).
      rewrite Hfirst in Hrun. injection Hrun as <- _. by destruct (Hr tt). }
  rewrite Hfirst in Hrun. injection Hrun as ->.
  cbn [spapr add_events set_spapr] in Hsame.
  assert (first_cpu w1' = first_cpu w) as Hcpu by apply Henv.
  destruct (reset_machine_again (spapr w) (first_cpu w) (spapr w1') Hwf Hsame)
    as [Hdef2 Heff2].
  fold s1 in Hdef2, Heff2.
  pose proof (spapr_caps_reset_run w1') as Hrun2. cbv zeta in Hrun2.
  rewrite Hcpu in Hrun2.
  set (s2 := reset_machine (spapr w1') (first_cpu w)) in *.
  rewrite (forallb_pointwise (λ i, apply_returns i (cap_get (eff s2) i) w1')
             (λ i, apply_returns i (cap_get (eff s1) i) w)) in Hrun2.
  2:{ intros i. rewrite Heff2. symmetry. apply apply_returns_same_env.
      destruct Henv as (H1 & H2 & H3 & H4). by repeat split. }
  rewrite Hall in Hrun2.
  eexists _, (apply_events (eff s1) (seq 0 SPAPR_CAP_NUM)).
  split; [exact Hrun2 |]. cbn [spapr trace add_events set_spapr].
  rewrite Hdef2, Heff2. split; [done |]. split; [done |].
  split; [by destruct Hsame as (_ & _ & Hc & _) |]. split; [done |]. split; [done |].
  apply apply_calls_apply_events.
Qed.


(** ** The invariant *)

Lemma spapr_cap_set_bool_run v nm cap errp w value :
  visit_type_bool v nm = inr value →
  spapr_cap_set_bool v nm cap errp w =
  (Returned None,
   set_spapr
     (set_eff (cap_set (eff (spapr w)) (index cap)
                 (if value then SPAPR_CAP_ON else SPAPR_CAP_OFF))
        (set_cmd_line_caps (<[index cap := true]> (cmd_line_caps (spapr w))) (spapr w)))
     w).
Proof. intros Hdecode. unfold spapr_cap_set_bool. rewrite Hdecode. reflexivity. Qed.

Lemma spapr_cap_set_bool_invariant v nm cap errp w :
  spapr_wf (spapr w) → caps_invariant (spapr w) →
  caps_invariant (spapr (spapr_cap_set_bool v nm cap errp w).2).
Proof.
  intros (_ & Hcmd & _ & [Heff _] & _) Hinv.
  destruct (visit_type_bool v nm) as [local_err | value] eqn:Hdecode.
  - unfold spapr_cap_set_bool. rewrite Hdecode. by destruct errp.
  - rewrite (spapr_cap_set_bool_run _ _ _ _ _ value) by done.
    cbn [snd spapr set_spapr]. intros i Hi.
    cbn [cmd_line_caps eff def set_eff set_cmd_line_caps].
    destruct (decide (index cap = i)) as [-> | Hne].
    + rewrite list_lookup_total_insert_eq by lia. done.
    + rewrite list_lookup_total_insert_ne, cap_get_set_ne by done. by apply Hinv.
Qed.

(** C7. From a machine whose arrays have their declared size,
    [spapr_caps_reset] leaves, however it ends, a machine in which every
    capability without an override has its effective level equal to its
    default level; and from a machine in which that holds, the property
    setter (which sets the override flag of the capability whose
    effective level it writes, and writes nothing when decoding fails),
    [spapr_caps_pre_save], [spapr_caps_pre_load] and
    [spapr_caps_post_migration] each leave a machine in which it holds. *)
Theorem caps_invariant_maintained w :
  spapr_wf (spapr w) →
  caps_invariant (spapr (spapr_caps_reset w).2) ∧
  (caps_invariant (spapr w) →
   (∀ v nm cap errp,
      caps_invariant (spapr (spapr_cap_set_bool v nm cap errp w).2) ∧
      (∀ value, visit_type_bool v nm = inr value → index cap < SPAPR_CAP_NUM →
         let s' := spapr (spapr_cap_set_bool v nm cap errp w).2 in
         cmd_line_caps s' !!! index cap = true ∧
         cap_get (eff s') (index cap)
         = (if value then SPAPR_CAP_ON else SPAPR_CAP_OFF) ∧
         def s' = def (spapr w))) ∧
   caps_invariant (spapr (spapr_caps_pre_save w).2) ∧
   caps_invariant (spapr (spapr_caps_pre_load w).2) ∧
   caps_invariant (spapr (spapr_caps_post_migration w).2)).
Proof.
  intros Hwf. split.
  - pose proof (spapr_caps_reset_run w) as Hrun. cbv zeta in Hrun.
    destruct (forallb _ _).
    + rewrite Hrun. by apply reset_machine_invariant.
    + destruct Hrun as (r & k & extra & -> & _). by apply reset_machine_invariant.
  - intros Hinv. split; [| split; [| split]].
    + intros v nm cap errp. split; [by apply spapr_cap_set_bool_invariant |].
      intros value Hdecode Hidx s'. subst s'.
      rewrite (spapr_cap_set_bool_run _ _ _ _ _ value) by done.
      cbn [snd spapr set_spapr cmd_line_caps eff def set_eff set_cmd_line_caps].
      destruct Hwf as (_ & Hcmd & _ & [Heff _] & _).
      rewrite list_lookup_total_insert_eq, cap_get_set_eq by lia. done.
    + exact Hinv.
    + exact Hinv.
    + rewrite spapr_caps_post_migration_run. exact Hinv.
Qed.

(** * Further properties *)

(** ** When reset returns *)

Lemma apply_returns_supported i val w :
  i < SPAPR_CAP_NUM →
  apply_returns i val w = (val =? 0)%Z || backend_supports i w.
Proof.
  intros Hi. unfold apply_returns. rewrite capability_table_eq.
  apply ordinal_cases in Hi as [-> | [-> | ->]];
    cbn [lookup_total list_lookup_total apply SPAPR_CAP_HTM SPAPR_CAP_VSX SPAPR_CAP_DFP];
    unfold backend_supports, htm_supported, cpu_has_altivec, cpu_has_vsx, cpu_has_dfp.
  - unfold cap_htm_apply. destruct (val =? 0)%Z; run_M; [done |].
    destruct (tcg_enabled w), (kvm_enabled w), (kvmppc_has_cap_htm w); done.
  - unfold cap_vsx_apply. run_M. destruct (val =? 0)%Z; [done |].
    destruct (Z.land (insns_flags (first_cpu w)) PPC_ALTIVEC =? 0)%Z,
             (Z.land (insns_flags2 (first_cpu w)) PPC2_VSX =? 0)%Z; done.
  - unfold cap_dfp_apply. run_M. destruct (val =? 0)%Z; [done |].
    destruct (Z.land (insns_flags2 (first_cpu w)) PPC2_DFP =? 0)%Z; done.
Qed.

(** X1. From a machine whose arrays have their declared size,
    [spapr_caps_reset] returns exactly when every capability whose level
    after the merge of overrides and defaults is above OFF is one the
    backend supports: HTM not under TCG nor under KVM without the HTM
    capability, VSX on a CPU with AltiVec and VSX, DFP on a CPU with
    DFP. *)
Theorem spapr_caps_reset_returns_iff_supported w :
  spapr_wf (spapr w) →
  (spapr_caps_reset w).1 = Returned tt ↔
  ∀ i, i < SPAPR_CAP_NUM →
       merged_level (spapr w) (first_cpu w) i = 0%Z ∨ backend_supports i w = true.
Proof.
  intros Hwf.
  pose proof (spapr_caps_reset_run w) as Hrun. cbv zeta in Hrun.
  pose proof (reset_apply_all_iff (eff (reset_machine (spapr w) (first_cpu w))) w) as Hall.
  assert (∀ i, i < SPAPR_CAP_NUM →
            apply_returns i (cap_get (eff (reset_machine (spapr w) (first_cpu w))) i) w = true
            ↔ merged_level (spapr w) (first_cpu w) i = 0%Z ∨ backend_supports i w = true)
    as Hone.
  { intros i Hi. rewrite apply_returns_supported, reset_machine_eff by done.
    fold (merged_level (spapr w) (first_cpu w) i).
    rewrite orb_true_iff, Z.eqb_eq. done. }
  destruct (forallb _ _).
  - rewrite Hrun. split; [intros _ | done].
    intros i Hi. apply Hone; [done |]. by apply Hall.
  - destruct Hrun as (r & k & extra & -> & Hr & _). cbn [fst]. split.
    + intros ->. by destruct (Hr tt).
    + intros Hsup. assert (false = true) as Hfalse; [| discriminate Hfalse].
      apply Hall. intros i Hi. apply Hone; [done |]. by apply Hsup.
Qed.

(** ** How reset fails *)

Lemma apply_refuses i val w :
  i < SPAPR_CAP_NUM → val ≠ 0%Z → backend_supports i w = false →
  apply (capability_table !!! i) val error_fatal w =
  if bool_decide (i = SPAPR_CAP_VSX) && negb (cpu_has_altivec w)
  then (Aborted, w)
  else (Exited 1, add_events [EvErrorReport (apply_error_msg i w)] w).
Proof.
  intros Hi Hval%Z.eqb_neq. rewrite capability_table_eq.
  apply ordinal_cases in Hi as [-> | [-> | ->]];
    cbn [lookup_total list_lookup_total apply SPAPR_CAP_HTM SPAPR_CAP_VSX SPAPR_CAP_DFP];
    unfold backend_supports, apply_error_msg, htm_supported,
      cpu_has_altivec, cpu_has_vsx, cpu_has_dfp; cbn [decide bool_decide].
  - unfold cap_htm_apply. rewrite Hval. run_M.
    destruct (tcg_enabled w), (kvm_enabled w), (kvmppc_has_cap_htm w); done.
  - unfold cap_vsx_apply. run_M. rewrite Hval.
    destruct (Z.land (insns_flags (first_cpu w)) PPC_ALTIVEC =? 0)%Z,
             (Z.land (insns_flags2 (first_cpu w)) PPC2_VSX =? 0)%Z; done.
  - unfold cap_dfp_apply. run_M. rewrite Hval.
    destruct (Z.land (insns_flags2 (first_cpu w)) PPC2_DFP =? 0)%Z; done.
Qed.

Lemma reset_apply_loop_app l1 l2 w :
  forallb (λ i, apply_returns i (cap_get (eff (spapr w)) i) w) l1 = true →
  for_each (l1 ++ l2) reset_apply tt w
  = for_each l2 reset_apply tt (add_events (apply_events (eff (spapr w)) l1) w).
Proof.
  revert w. induction l1 as [| i l1 IH]; intros w Hall.
  - cbn. by rewrite add_events_nil.
  - cbn [forallb] in Hall. apply andb_true_iff in Hall as [Hi Hall].
    cbn [app]. rewrite for_each_cons.
    pose proof (reset_apply_run i w) as Hstep. cbv zeta in Hstep. rewrite Hi in Hstep.
    erewrite bind_returned by exact Hstep.
    rewrite IH.
    + cbn [spapr add_events]. by rewrite add_events_app.
    + cbn [spapr add_events].
      rewrite (forallb_pointwise _ (λ j, apply_returns j (cap_get (eff (spapr w)) j) w));
        [done |].
      intros j. by apply apply_returns_same_env.
Qed.

Lemma apply_events_snoc c k :
  apply_events c (seq 0 (S k)) = apply_events c (seq 0 k) ++ [EvApply k (cap_get c k)].
Proof. unfold apply_events. by rewrite seq_S, fmap_app. Qed.

Lemma reset_apply_refused i w :
  i < SPAPR_CAP_NUM →
  cap_get (eff (spapr w)) i ≠ 0%Z → backend_supports i w = false →
  reset_apply i tt w =
  if bool_decide (i = SPAPR_CAP_VSX) && negb (cpu_has_altivec w)
  then (Aborted, add_events [EvApply i (cap_get (eff (spapr w)) i)] w)
  else (Exited 1,
        add_events [EvApply i (cap_get (eff (spapr w)) i);
                    EvErrorReport (apply_error_msg i w)] w).
Proof.
  intros Hi Hval Hsup. unfold reset_apply. run_M.
  rewrite (apply_refuses i _ (add_events [EvApply i (cap_get (eff (spapr w)) i)] w))
    by done.
  change (cpu_has_altivec (add_events _ w)) with (cpu_has_altivec w).
  change (apply_error_msg i (add_events _ w)) with (apply_error_msg i w).
  destruct (bool_decide _ && negb _); [done |]. by rewrite add_events_app.
Qed.

(** X2. When some capability's merged level is above OFF and the backend
    does not support it, [spapr_caps_reset] ends the process at the first
    such capability [k] in table order: the callbacks of the capabilities
    up to and including [k] have been called, none after; the process
    exits with status 1 after the one error report of [k], except that a
    VSX request on a CPU without AltiVec aborts on the assertion without a
    report.  The defaults and the merged levels are stored by then. *)
Theorem spapr_caps_reset_first_refusal w k :
  spapr_wf (spapr w) →
  k < SPAPR_CAP_NUM →
  (∀ j, j < k →
        merged_level (spapr w) (first_cpu w) j = 0%Z ∨ backend_supports j w = true) →
  merged_level (spapr w) (first_cpu w) k ≠ 0%Z →
  backend_supports k w = false →
  let s1 := reset_machine (spapr w) (first_cpu w) in
  let called := apply_events (eff s1) (seq 0 (S k)) in
  spapr_caps_reset w =
  if bool_decide (k = SPAPR_CAP_VSX) && negb (cpu_has_altivec w)
  then (Aborted, add_events called (set_spapr s1 w))
  else (Exited 1,
        add_events (called ++ [EvErrorReport (apply_error_msg k w)]) (set_spapr s1 w)).
Proof.
  intros Hwf Hk Hbefore Hlevel Hsup s1 called.
  unfold spapr_caps_reset, for_range.
  erewrite bind_returned by reflexivity.
  erewrite bind_returned by apply reset_store_loop.
  fold (reset_machine (spapr w) (first_cpu w)). fold s1.
  assert (seq 0 SPAPR_CAP_NUM = seq 0 k ++ k :: seq (S k) (SPAPR_CAP_NUM - S k)) as ->.
  { replace SPAPR_CAP_NUM with (k + S (SPAPR_CAP_NUM - S k)) at 1 by lia.
    by rewrite seq_app. }
  assert (∀ j, j < SPAPR_CAP_NUM → cap_get (eff s1) j = merged_level (spapr w) (first_cpu w) j)
    as Heff by (intros j Hj; by apply reset_machine_eff).
  rewrite reset_apply_loop_app.
  2:{ cbn [spapr set_spapr]. apply forallb_forall. intros j Hj%in_seq.
      rewrite (apply_returns_same_env j _ w) by done.
      rewrite apply_returns_supported, Heff by lia.
      apply orb_true_iff. rewrite Z.eqb_eq. apply Hbefore. lia. }
  cbn [spapr set_spapr]. rewrite for_each_cons.
  pose proof (reset_apply_refused k (add_events (apply_events (eff s1) (seq 0 k))
                                       (set_spapr s1 w))) as Hstep.
  cbn [spapr set_spapr add_events] in Hstep.
  rewrite Heff in Hstep by done. specialize (Hstep Hk Hlevel Hsup).
  change (cpu_has_altivec (add_events _ (set_spapr s1 w))) with (cpu_has_altivec w) in Hstep.
  change (apply_error_msg k (add_events _ (set_spapr s1 w))) with (apply_error_msg k w)
    in Hstep.
  subst called. rewrite apply_events_snoc, Heff by done.
  destruct (bool_decide _ && negb _).
  - erewrite bind_not_returned by (exact Hstep || done).
    by rewrite add_events_app.
  - erewrite bind_not_returned by (exact Hstep || done).
    rewrite add_events_app, <- app_assoc. done.
Qed.

(** ** The setter when decoding succeeds *)

Lemma spapr_cap_set_bool_wf v nm cap errp w :
  spapr_wf (spapr w) → spapr_wf (spapr (spapr_cap_set_bool v nm cap errp w).2).
Proof.
  intros Hwf. destruct (visit_type_bool v nm) as [local_err | value] eqn:Hdecode.
  - unfold spapr_cap_set_bool. rewrite Hdecode. by destruct errp.
  - rewrite (spapr_cap_set_bool_run _ _ _ _ _ value) by done.
    destruct Hwf as (Hbase & Hcmd & Hdef & [Hlen Heff] & Hmig).
    cbn [snd spapr set_spapr]. split; [done |].
    split; [cbn; by rewrite length_insert |]. split; [done |]. split; [| done].
    split; [cbn; by rewrite length_insert |].
    cbn [eff set_eff cap_set caps]. apply Forall_insert; [done |].
    unfold is_uint8, SPAPR_CAP_ON, SPAPR_CAP_OFF. destruct value; lia.
Qed.

Lemma spapr_caps_reset_spapr w :
  spapr (spapr_caps_reset w).2 = reset_machine (spapr w) (first_cpu w).
Proof.
  pose proof (spapr_caps_reset_run w) as Hrun. cbv zeta in Hrun.
  destruct (forallb _ _).
  - by rewrite Hrun.
  - by destruct Hrun as (r & k & extra & -> & _).
Qed.

(** X3. When the visitor decodes a boolean, [spapr_cap_set_bool] returns
    without an error whatever [errp] is, sets the override flag of the
    entry's capability and stores ON or OFF as its effective level, and
    touches nothing else: the flags and effective levels of the other
    capabilities, the default set, the migration set, the class and the
    rest of the world are as before. *)
Theorem spapr_cap_set_bool_writes_one_slot v nm cap errp w value :
  visit_type_bool v nm = inr value →
  spapr_wf (spapr w) →
  index cap < SPAPR_CAP_NUM →
  ∃ w',
    spapr_cap_set_bool v nm cap errp w = (Returned None, w') ∧
    cmd_line_caps (spapr w') !!! index cap = true ∧
    cap_get (eff (spapr w')) (index cap) = level_of_bool value ∧
    (∀ j, j ≠ index cap →
          cmd_line_caps (spapr w') !!! j = cmd_line_caps (spapr w) !!! j ∧
          cap_get (eff (spapr w')) j = cap_get (eff (spapr w)) j) ∧
    length (cmd_line_caps (spapr w')) = length (cmd_line_caps (spapr w)) ∧
    length (caps (eff (spapr w'))) = length (caps (eff (spapr w))) ∧
    def (spapr w') = def (spapr w) ∧
    mig (spapr w') = mig (spapr w) ∧
    smc (spapr w') = smc (spapr w) ∧
    max_compat_pvr (spapr w') = max_compat_pvr (spapr w) ∧
    same_but_spapr w w'.
Proof.
  intros Hdecode (_ & Hcmd & _ & [Heff _] & _) Hidx.
  eexists. split; [by apply spapr_cap_set_bool_run |].
  cbn [spapr set_spapr cmd_line_caps eff def mig smc max_compat_pvr set_eff
         set_cmd_line_caps].
  split; [by rewrite list_lookup_total_insert_eq by lia |].
  split; [by rewrite cap_get_set_eq by lia |].
  split.
  { intros j Hj. by rewrite list_lookup_total_insert_ne, cap_get_set_ne. }
  split; [by rewrite length_insert |]. split; [by rewrite cap_set_length |].
  done.
Qed.

(** X4. Two successful sets compose as stores do: on the same capability
    the later one alone decides the outcome, and on two different
    capabilities the order does not matter. *)
Theorem spapr_cap_set_bool_twice v1 nm1 cap1 errp1 v2 nm2 cap2 errp2 w b1 b2 :
  visit_type_bool v1 nm1 = inr b1 →
  visit_type_bool v2 nm2 = inr b2 →
  let set1 := spapr_cap_set_bool v1 nm1 cap1 errp1 in
  let set2 := spapr_cap_set_bool v2 nm2 cap2 errp2 in
  (index cap1 = index cap2 → (set1 ≫= λ _, set2) w = set2 w) ∧
  (index cap1 ≠ index cap2 → (set1 ≫= λ _, set2) w = (set2 ≫= λ _, set1) w).
Proof.
  intros Hd1 Hd2 set1 set2. subst set1 set2. split; intros Hidx.
  - erewrite bind_returned by (by apply spapr_cap_set_bool_run).
    rewrite !(spapr_cap_set_bool_run _ _ _ _ _ b2) by done.
    cbn [spapr set_spapr cmd_line_caps eff set_eff set_cmd_line_caps].
    rewrite Hidx. unfold cap_set. cbn [caps].
    by rewrite !list_insert_insert_eq.
  - erewrite !bind_returned by (by apply spapr_cap_set_bool_run).
    rewrite (spapr_cap_set_bool_run _ _ _ _ _ b2), (spapr_cap_set_bool_run _ _ _ _ _ b1)
      by done.
    cbn [spapr set_spapr cmd_line_caps eff set_eff set_cmd_line_caps].
    unfold cap_set. cbn [caps].
    rewrite (list_insert_insert_ne (cmd_line_caps (spapr w)) (index cap2) (index cap1))
      by done.
    rewrite (list_insert_insert_ne (caps (eff (spapr w))) (index cap2) (index cap1))
      by done.
    done.
Qed.

(** X5. An override outlives reset: after a successful set of a
    capability, [spapr_caps_reset], however it ends, leaves that
    capability's effective level at what the user asked for, even where
    the CPU's compatibility narrows the default to OFF, while the default
    set and the other capabilities get what a reset of the machine before
    the set would give them. *)
Theorem spapr_cap_set_bool_survives_reset v nm cap errp w value :
  visit_type_bool v nm = inr value →
  spapr_wf (spapr w) →
  index cap < SPAPR_CAP_NUM →
  let w1 := (spapr_cap_set_bool v nm cap errp w).2 in
  let w2 := (spapr_caps_reset w1).2 in
  cmd_line_caps (spapr w2) !!! index cap = true ∧
  cap_get (eff (spapr w2)) (index cap) = level_of_bool value ∧
  def (spapr w2) = default_caps_with_cpu (spapr w) (first_cpu w) ∧
  (∀ j, j < SPAPR_CAP_NUM → j ≠ index cap →
        cap_get (eff (spapr w2)) j = merged_level (spapr w) (first_cpu w) j).
Proof.
  intros Hdecode Hwf Hidx w1 w2.
  pose proof (spapr_cap_set_bool_wf v nm cap errp w Hwf) as Hwf1. fold w1 in Hwf1.
  assert (spapr w2 = reset_machine (spapr w1) (first_cpu w1)) as ->
    by apply spapr_caps_reset_spapr.
  assert (w1 = set_spapr
                 (set_eff (cap_set (eff (spapr w)) (index cap) (level_of_bool value))
                    (set_cmd_line_caps (<[index cap := true]> (cmd_line_caps (spapr w)))
                       (spapr w))) w) as Hw1.
  { unfold w1. by rewrite (spapr_cap_set_bool_run _ _ _ _ _ value). }
  destruct Hwf as (_ & Hcmd & _ & [Heff _] & _).
  assert (cmd_line_caps (spapr w1) !!! index cap = true) as Hflag.
  { rewrite Hw1. cbn. by rewrite list_lookup_total_insert_eq by lia. }
  assert (default_caps_with_cpu (spapr w1) (first_cpu w1)
          = default_caps_with_cpu (spapr w) (first_cpu w)) as Hdc
    by (by rewrite Hw1).
  split; [exact Hflag |]. split; [| split].
  - rewrite reset_machine_eff, Hflag by done.
    rewrite Hw1. cbn [spapr set_spapr eff set_eff]. by rewrite cap_get_set_eq by lia.
  - by rewrite reset_machine_def, Hdc.
  - intros j Hj Hne. rewrite reset_machine_eff, Hdc by done. unfold merged_level.
    rewrite Hw1. cbn [spapr set_spapr eff set_eff cmd_line_caps set_cmd_line_caps].
    by rewrite list_lookup_total_insert_ne, cap_get_set_ne.
Qed.

(** ** What goes on the wire after a reset *)

(** X6. After [spapr_caps_reset], however it ends, the migration record of
    capability [i] is needed exactly when the user overrode [i] to a level
    other than the default computed for this CPU; a machine without
    overrides sends no capability record. *)
Theorem spapr_caps_reset_needed w i :
  spapr_wf (spapr w) →
  i < SPAPR_CAP_NUM →
  let s' := spapr (spapr_caps_reset w).2 in
  (SPAPR_CAP_MIG_STATE_needed i s' = true ↔
   cmd_line_caps (spapr w) !!! i = true ∧
   cap_get (eff (spapr w)) i ≠ cap_get (default_caps_with_cpu (spapr w) (first_cpu w)) i) ∧
  ((∀ j, j < SPAPR_CAP_NUM → cmd_line_caps (spapr w) !!! j = false) →
   Forall (λ vmsd, needed vmsd s' = false) vmstate_spapr_caps).
Proof.
  intros Hwf Hi s'. subst s'. rewrite spapr_caps_reset_spapr.
  assert (∀ j, j < SPAPR_CAP_NUM →
            SPAPR_CAP_MIG_STATE_needed j (reset_machine (spapr w) (first_cpu w)) = true ↔
            cmd_line_caps (spapr w) !!! j = true ∧
            cap_get (eff (spapr w)) j
            ≠ cap_get (default_caps_with_cpu (spapr w) (first_cpu w)) j) as Hneeded.
  { intros j Hj. rewrite SPAPR_CAP_MIG_STATE_needed_iff.
    rewrite reset_machine_eff, reset_machine_def by done.
    change (cmd_line_caps (reset_machine (spapr w) (first_cpu w)))
      with (cmd_line_caps (spapr w)).
    destruct (cmd_line_caps (spapr w) !!! j); [done |].
    split; intros [Hflag _]; discriminate Hflag. }
  split; [by apply Hneeded |].
  intros Hnone.
  assert (∀ j, j < SPAPR_CAP_NUM →
            SPAPR_CAP_MIG_STATE_needed j (reset_machine (spapr w) (first_cpu w)) = false)
    as Hoff.
  { intros j Hj. apply not_true_is_false. intros [Hflag _]%Hneeded; [| done].
    rewrite Hnone in Hflag by done. discriminate Hflag. }
  unfold vmstate_spapr_caps.
  repeat (apply Forall_cons_2; [apply Hoff; unfold SPAPR_CAP_NUM, SPAPR_CAP_DFP,
                                  SPAPR_CAP_VSX, SPAPR_CAP_HTM; lia |]).
  apply Forall_nil_2.
Qed.

(** ** Migration, end to end *)

Lemma migration_reports_none srccaps dstcaps l :
  (∀ i, i ∈ l → cap_get srccaps i = cap_get dstcaps i) →
  flat_map (migration_reports srccaps dstcaps) l = [].
Proof.
  induction l as [| i l IH]; intros Heq; [done |].
  cbn [flat_map]. rewrite IH by (intros j Hj; apply Heq; by right).
  unfold migration_reports. rewrite (Heq i) by left.
  by rewrite Z.gtb_ltb, Z.ltb_irrefl.
Qed.

Lemma post_migration_srccaps_get s cpu i :
  length (caps (default_caps (smc s))) = SPAPR_CAP_NUM →
  i < SPAPR_CAP_NUM →
  cap_get (post_migration_srccaps s cpu) i
  = if (cap_get (mig s) i =? cap_get (def s) i)%Z
    then cap_get (default_caps_with_cpu s cpu) i
    else cap_get (mig s) i.
Proof.
  intros Hlen Hi. rewrite post_migration_srccaps_eq, overlay_get.
  2:{ intros j Hj%elem_of_seq. rewrite default_caps_with_cpu_length, Hlen. lia. }
  destruct (cap_get (mig s) i =? cap_get (def s) i)%Z;
    destruct (decide _) as [[_ Hc] | Hn]; try done.
  destruct Hn. split; [apply elem_of_seq; lia | done].
Qed.

Lemma post_migration_verdict_iff w :
  ((spapr_caps_post_migration w).1 = Returned (- EINVAL)%Z ↔
   ∃ i, i < SPAPR_CAP_NUM ∧
        (cap_get (post_migration_srccaps (spapr w) (first_cpu w)) i
         > cap_get (eff (spapr w)) i)%Z) ∧
  ((spapr_caps_post_migration w).1 = Returned 0%Z ↔
   ∀ i, i < SPAPR_CAP_NUM →
        (cap_get (post_migration_srccaps (spapr w) (first_cpu w)) i
         ≤ cap_get (eff (spapr w)) i)%Z).
Proof.
  rewrite spapr_caps_post_migration_run. cbn [fst].
  rewrite <- some_higher_level_iff, <- no_higher_level_iff.
  unfold EINVAL. destruct (forallb _ _); split; split; (done || discriminate).
Qed.

(** X7. The case the comment above [spapr_caps_post_migration] is about:
    on a destination that has been reset, [spapr_caps_pre_load] followed by
    [spapr_caps_post_migration] with no capability record received in
    between compares the destination's own defaults with its effective
    levels.  The migration is refused exactly when an overridden
    capability is below its default, and a destination without overrides
    accepts without any report. *)
Theorem spapr_caps_nothing_received w :
  spapr_wf (spapr w) →
  default_caps_with_cpu (spapr w) (first_cpu w) = def (spapr w) →
  caps_invariant (spapr w) →
  let w1 := (spapr_caps_pre_load w).2 in
  ((spapr_caps_post_migration w1).1 = Returned (- EINVAL)%Z ↔
   ∃ i, i < SPAPR_CAP_NUM ∧ cmd_line_caps (spapr w) !!! i = true ∧
        (cap_get (eff (spapr w)) i < cap_get (def (spapr w)) i)%Z) ∧
  ((∀ i, i < SPAPR_CAP_NUM → cmd_line_caps (spapr w) !!! i = false) →
   spapr_caps_post_migration w1 = (Returned 0%Z, w1)).
Proof.
  intros Hwf Hfresh Hinv w1.
  assert (∀ i, i < SPAPR_CAP_NUM →
            cap_get (post_migration_srccaps (spapr w1) (first_cpu w1)) i
            = cap_get (def (spapr w)) i) as Hsrc.
  { intros i Hi. rewrite post_migration_srccaps_get by (done || apply Hwf).
    subst w1. cbn [snd spapr_caps_pre_load]. run_M.
    cbn [snd spapr set_spapr mig def set_mig first_cpu].
    by rewrite Z.eqb_refl, <- Hfresh. }
  split.
  - rewrite (proj1 (post_migration_verdict_iff w1)).
    change (eff (spapr w1)) with (eff (spapr w)).
    split; intros (i & Hi & Hgt); exists i; (split; [done |]).
    + rewrite Hsrc in Hgt by done. split; [| lia].
      destruct (cmd_line_caps (spapr w) !!! i) eqn:Hflag; [done |].
      rewrite (Hinv i Hi Hflag) in Hgt. lia.
    + rewrite Hsrc by done. lia.
  - intros Hnone. rewrite spapr_caps_post_migration_run.
    assert (∀ i, i ∈ seq 0 SPAPR_CAP_NUM →
              cap_get (post_migration_srccaps (spapr w1) (first_cpu w1)) i
              = cap_get (eff (spapr w1)) i) as Heq.
    { intros i Hi%elem_of_seq. rewrite Hsrc by lia.
      change (eff (spapr w1)) with (eff (spapr w)). symmetry. apply Hinv; [lia |].
      apply Hnone. lia. }
    rewrite migration_reports_none, add_events_nil by done.
    rewrite (proj2 (no_higher_level_iff _ _ _)); [done |].
    intros i Hi. rewrite Heq by (apply elem_of_seq; lia). lia.
Qed.

Lemma vmstate_load_caps_frame src dst :
  same_but_mig dst (vmstate_load_caps vmstate_spapr_caps src dst).
Proof.
  unfold vmstate_load_caps, vmstate_spapr_caps. cbn [fold_left].
  by repeat (destruct (needed _ src)).
Qed.

Lemma vmstate_load_caps_mig src dst i :
  length (caps (mig dst)) = SPAPR_CAP_NUM →
  i < SPAPR_CAP_NUM →
  cap_get (mig (vmstate_load_caps vmstate_spapr_caps src dst)) i
  = if SPAPR_CAP_MIG_STATE_needed i src then cap_get (mig src) i
    else cap_get (mig dst) i.
Proof.
  intros Hlen Hi.
  unfold vmstate_load_caps, vmstate_spapr_caps, vmstate_spapr_cap_htm,
    vmstate_spapr_cap_vsx, vmstate_spapr_cap_dfp, SPAPR_CAP_MIG_STATE.
  cbn [fold_left needed field].
  unfold SPAPR_CAP_NUM, SPAPR_CAP_DFP, SPAPR_CAP_VSX, SPAPR_CAP_HTM in *.
  destruct (SPAPR_CAP_MIG_STATE_needed 0 src) eqn:H0,
           (SPAPR_CAP_MIG_STATE_needed 1 src) eqn:H1,
           (SPAPR_CAP_MIG_STATE_needed 2 src) eqn:H2;
    cbn [mig set_mig];
    destruct i as [| [| [| i]]]; try lia; rewrite ?H0, ?H1, ?H2; caps_simpl.
Qed.

(** X8. Migration between machines with the same default set.  The
    source, in which every capability without an override is at its
    default, runs [spapr_caps_pre_save]; the destination, whose stored
    defaults are those computed for its CPU, runs [spapr_caps_pre_load]
    and receives the records that are needed on the source.  Then
    [spapr_caps_post_migration] reconstructs exactly the source's
    effective set, so it refuses the migration exactly when the source ran
    some capability at a higher level than the destination does. *)
Theorem spapr_caps_migration_end_to_end ws wd :
  spapr_wf (spapr ws) →
  spapr_wf (spapr wd) →
  caps_invariant (spapr ws) →
  def (spapr wd) = def (spapr ws) →
  default_caps_with_cpu (spapr wd) (first_cpu wd) = def (spapr wd) →
  let sent := spapr (spapr_caps_pre_save ws).2 in
  let wd1 := (spapr_caps_pre_load wd).2 in
  let wd2 := set_spapr (vmstate_load_caps vmstate_spapr_caps sent (spapr wd1)) wd1 in
  (∀ i, i < SPAPR_CAP_NUM →
        cap_get (post_migration_srccaps (spapr wd2) (first_cpu wd2)) i
        = cap_get (eff (spapr ws)) i) ∧
  ((spapr_caps_post_migration wd2).1 = Returned (- EINVAL)%Z ↔
   ∃ i, i < SPAPR_CAP_NUM ∧ (cap_get (eff (spapr ws)) i > cap_get (eff (spapr wd)) i)%Z) ∧
  ((spapr_caps_post_migration wd2).1 = Returned 0%Z ↔
   ∀ i, i < SPAPR_CAP_NUM → (cap_get (eff (spapr ws)) i ≤ cap_get (eff (spapr wd)) i)%Z).
Proof.
  intros Hwfs Hwfd Hinv Hdef Hfresh sent wd1 wd2.
  pose proof (vmstate_load_caps_frame sent (spapr wd1)) as (Hd & He & Hc & Hsmc & Hmax).
  fold (spapr wd2) in Hd, He, Hc, Hsmc, Hmax.
  assert (spapr wd2 = vmstate_load_caps vmstate_spapr_caps sent (spapr wd1)) as Hwd2
    by reflexivity.
  assert (def (spapr wd2) = def (spapr wd)) as Hd' by (by rewrite Hwd2, Hd).
  assert (eff (spapr wd2) = eff (spapr wd)) as He' by (by rewrite Hwd2, He).
  assert (default_caps_with_cpu (spapr wd2) (first_cpu wd2) = def (spapr wd)) as Hdc.
  { rewrite <- Hfresh. apply default_caps_with_cpu_inputs; by rewrite Hwd2. }
  assert (∀ i, i < SPAPR_CAP_NUM →
            cap_get (post_migration_srccaps (spapr wd2) (first_cpu wd2)) i
            = cap_get (eff (spapr ws)) i) as Hsrc.
  { intros i Hi.
    rewrite post_migration_srccaps_get; [| rewrite Hwd2, Hsmc; apply Hwfd | done].
    rewrite Hdc, Hd'. rewrite Hwd2.
    rewrite vmstate_load_caps_mig; [| apply Hwfd | done].
    change (mig (spapr wd1)) with (def (spapr wd)).
    change (mig sent) with (eff (spapr ws)).
    destruct (SPAPR_CAP_MIG_STATE_needed i sent) eqn:Hneeded.
    - apply SPAPR_CAP_MIG_STATE_needed_iff in Hneeded as [_ Hne].
      change (eff sent) with (eff (spapr ws)) in Hne.
      change (def sent) with (def (spapr ws)) in Hne.
      rewrite Hdef. by apply Z.eqb_neq in Hne as ->.
    - rewrite Z.eqb_refl, Hdef.
      unfold SPAPR_CAP_MIG_STATE_needed in Hneeded.
      change (cmd_line_caps sent) with (cmd_line_caps (spapr ws)) in Hneeded.
      change (eff sent) with (eff (spapr ws)) in Hneeded.
      change (def sent) with (def (spapr ws)) in Hneeded.
      destruct (cmd_line_caps (spapr ws) !!! i) eqn:Hflag.
      + cbn in Hneeded. apply negb_false_iff, Z.eqb_eq in Hneeded. done.
      + symmetry. by apply Hinv. }
  split; [exact Hsrc |].
  destruct (post_migration_verdict_iff wd2) as [Hfail Hok].
  rewrite Hfail, Hok, He'. split; split.
  - intros (i & Hi & Hgt). exists i. rewrite <- Hsrc by done. done.
  - intros (i & Hi & Hgt). exists i. rewrite Hsrc by done. done.
  - intros Hall i Hi. rewrite <- Hsrc by done. by apply Hall.
  - intros Hall i Hi. rewrite Hsrc by done. by apply Hall.
Qed.

(** ** How many reports *)

Lemma migration_reports_count srccaps dstcaps l :
  length (List.filter is_error_report (flat_map (migration_reports srccaps dstcaps) l))
  = length (List.filter (λ i, (cap_get srccaps i >? cap_get dstcaps i)%Z) l) ∧
  length (List.filter is_warn_report (flat_map (migration_reports srccaps dstcaps) l))
  = length (List.filter (λ i, (cap_get srccaps i <? cap_get dstcaps i)%Z) l) ∧
  length (flat_map (migration_reports srccaps dstcaps) l) ≤ length l.
Proof.
  induction l as [| i l (IHe & IHw & IHn)]; [done |].
  cbn [flat_map List.filter]. rewrite !List.filter_app, !length_app, IHe, IHw.
  set (rest := flat_map (migration_reports srccaps dstcaps) l) in *.
  unfold migration_reports.
  destruct (Z.gtb_spec (cap_get srccaps i) (cap_get dstcaps i)) as [Hgt | Hle],
           (Z.ltb_spec (cap_get srccaps i) (cap_get dstcaps i)) as [Hlt | Hge];
    try lia;
    cbn [length app List.filter is_error_report is_warn_report];
    repeat split; lia.
Qed.

(** X9. [spapr_caps_post_migration] reports each capability at most once:
    it adds one error report per capability whose reconstructed source
    level is above the destination's, one warning per capability whose
    source level is below, nothing for the others, and so never more
    events than there are capabilities. *)
Theorem spapr_caps_post_migration_report_count w :
  let srccaps := post_migration_srccaps (spapr w) (first_cpu w) in
  let dstcaps := eff (spapr w) in
  ∃ new,
    (spapr_caps_post_migration w).2 = add_events new w ∧
    length (List.filter is_error_report new)
    = length (List.filter (λ i, (cap_get srccaps i >? cap_get dstcaps i)%Z)
                (seq 0 SPAPR_CAP_NUM)) ∧
    length (List.filter is_warn_report new)
    = length (List.filter (λ i, (cap_get srccaps i <? cap_get dstcaps i)%Z)
                (seq 0 SPAPR_CAP_NUM)) ∧
    length new = length (List.filter is_error_report new)
                 + length (List.filter is_warn_report new) ∧
    length new ≤ SPAPR_CAP_NUM.
Proof.
  intros srccaps dstcaps.
  exists (flat_map (migration_reports srccaps dstcaps) (seq 0 SPAPR_CAP_NUM)).
  rewrite spapr_caps_post_migration_run. cbn [snd]. fold srccaps dstcaps.
  destruct (migration_reports_count srccaps dstcaps (seq 0 SPAPR_CAP_NUM))
    as (He & Hw & Hn).
  split; [done |]. split; [done |]. split; [done |].
  split; [| by rewrite length_seq in Hn].
  clear He Hw Hn. induction (seq 0 SPAPR_CAP_NUM) as [| i l IH]; [done |].
  cbn [flat_map]. rewrite !List.filter_app, !length_app, IH.
  set (rest := flat_map (migration_reports srccaps dstcaps) l) in *.
  unfold migration_reports.
  destruct (cap_get srccaps i >? cap_get dstcaps i)%Z,
           (cap_get srccaps i <? cap_get dstcaps i)%Z;
    cbn [length app List.filter is_error_report is_warn_report]; lia.
Qed.

(** ** What reset depends on *)

(** X10. Reset forgets what was stored: two machines of the same class,
    with the same compatibility ceiling, CPU and override flags, and the
    same effective levels at the overridden capabilities, have the same
    default set and the same effective set after [spapr_caps_reset],
    whatever their default sets, migration sets and other effective levels
    were before. *)
Theorem spapr_caps_reset_forgets w w' :
  spapr_wf (spapr w) →
  spapr_wf (spapr w') →
  first_cpu w' = first_cpu w →
  smc (spapr w') = smc (spapr w) →
  max_compat_pvr (spapr w') = max_compat_pvr (spapr w) →
  cmd_line_caps (spapr w') = cmd_line_caps (spapr w) →
  (∀ i, i < SPAPR_CAP_NUM → cmd_line_caps (spapr w) !!! i = true →
        cap_get (eff (spapr w')) i = cap_get (eff (spapr w)) i) →
  def (spapr (spapr_caps_reset w').2) = def (spapr (spapr_caps_reset w).2) ∧
  eff (spapr (spapr_caps_reset w').2) = eff (spapr (spapr_caps_reset w).2).
Proof.
  intros Hwf Hwf' Hcpu Hsmc Hmax Hcmd Heff.
  rewrite !spapr_caps_reset_spapr, Hcpu.
  assert (default_caps_with_cpu (spapr w') (first_cpu w)
          = default_caps_with_cpu (spapr w) (first_cpu w)) as Hdc
    by (by apply default_caps_with_cpu_inputs).
  split.
  - by rewrite !reset_machine_def, Hdc.
  - pose proof (reset_machine_wf _ (first_cpu w) Hwf) as (_ & _ & _ & [Hlen _] & _).
    pose proof (reset_machine_wf _ (first_cpu w) Hwf') as (_ & _ & _ & [Hlen' _] & _).
    apply caps_eq; [by rewrite Hlen, Hlen' |].
    intros i Hi. rewrite Hlen' in Hi.
    rewrite !reset_machine_eff, Hcmd, Hdc by done.
    destruct (cmd_line_caps (spapr w) !!! i) eqn:Hflag; [by apply Heff | done].
Qed.

(** ** A callback with a caller's error destination *)

(** X11. Handed a caller's [errp], the callback of a capability never
    ends the process by exit and never changes the world.  It leaves
    [errp] empty exactly when the level is OFF or the backend supports
    the capability, and otherwise hands back the capability's refusal
    message; the one exception is the assertion of [cap_vsx_apply], which
    aborts when VSX is asked of a CPU without AltiVec. *)
Theorem cap_apply_local_errp i val w :
  i < SPAPR_CAP_NUM →
  ∃ r,
    apply (capability_table !!! i) val errp_local w = (r, w) ∧
    (r = Returned None ↔ val = 0%Z ∨ backend_supports i w = true) ∧
    (r = Aborted ↔
     val ≠ 0%Z ∧ i = SPAPR_CAP_VSX ∧ cpu_has_altivec w = false) ∧
    (r ≠ Returned None → r ≠ Aborted → r = Returned (Some (apply_error_msg i w))).
Proof.
  intros Hi. rewrite capability_table_eq.
  apply ordinal_cases in Hi as [-> | [-> | ->]];
    cbn [lookup_total list_lookup_total apply SPAPR_CAP_HTM SPAPR_CAP_VSX SPAPR_CAP_DFP];
    unfold backend_supports, apply_error_msg, htm_supported,
      cpu_has_altivec, cpu_has_vsx, cpu_has_dfp; cbn [decide].
  - unfold cap_htm_apply. destruct (Z.eqb_spec val 0) as [-> | Hval]; run_M.
    + eexists; split; [done |]. repeat split; try done; auto. intros [? _]; done.
    + destruct (tcg_enabled w), (kvm_enabled w), (kvmppc_has_cap_htm w);
        cbn; (eexists; split; [done |]); repeat split; try done; auto;
        try (intros [? | ?]; done); try (intros [_ [? _]]; done).
  - unfold cap_vsx_apply. run_M. destruct (Z.eqb_spec val 0) as [-> | Hval].
    + eexists; split; [done |]. repeat split; try done; auto. intros [? _]; done.
    + destruct (Z.land (insns_flags (first_cpu w)) PPC_ALTIVEC =? 0)%Z,
               (Z.land (insns_flags2 (first_cpu w)) PPC2_VSX =? 0)%Z;
        cbn; (eexists; split; [done |]); repeat split; try done; auto;
        try (intros [? | ?]; done); try (intros [_ [_ ?]]; done).
  - unfold cap_dfp_apply. run_M. destruct (Z.eqb_spec val 0) as [-> | Hval].
    + eexists; split; [done |]. repeat split; try done; auto. intros [? _]; done.
    + destruct (Z.land (insns_flags2 (first_cpu w)) PPC2_DFP =? 0)%Z;
        cbn; (eexists; split; [done |]); repeat split; try done; auto;
        try (intros [? | ?]; done); try (intros [_ [? _]]; done).
Qed.

(** ** Reconstruction with fresh defaults *)

(** X12. When the stored default set is the one computed for the CPU, as
    it is after a reset, the test "differs from the default" loses
    nothing: the reconstructed source set is the migration set itself, a
    received byte that happens to equal the default included, and
    [spapr_caps_post_migration] refuses exactly when some byte of the
    migration set is above the effective level. *)
Theorem post_migration_srccaps_fresh w :
  spapr_wf (spapr w) →
  default_caps_with_cpu (spapr w) (first_cpu w) = def (spapr w) →
  post_migration_srccaps (spapr w) (first_cpu w) = mig (spapr w) ∧
  ((spapr_caps_post_migration w).1 = Returned (- EINVAL)%Z ↔
   ∃ i, i < SPAPR_CAP_NUM ∧ (cap_get (mig (spapr w)) i > cap_get (eff (spapr w)) i)%Z).
Proof.
  intros (Hbase & _ & _ & _ & [Hmig _]) Hfresh.
  assert (post_migration_srccaps (spapr w) (first_cpu w) = mig (spapr w)) as Hsrc.
  { apply caps_eq.
    - rewrite post_migration_srccaps_eq, overlay_length, default_caps_with_cpu_length.
      destruct Hbase as [-> _]. done.
    - rewrite post_migration_srccaps_eq, overlay_length, default_caps_with_cpu_length.
      destruct Hbase as [Hlen _]. rewrite Hlen. intros i Hi.
      rewrite <- post_migration_srccaps_eq, post_migration_srccaps_get by done.
      destruct (Z.eqb_spec (cap_get (mig (spapr w)) i) (cap_get (def (spapr w)) i))
        as [Heq | _]; [| done].
      by rewrite Hfresh. }
  split; [exact Hsrc |].
  rewrite (proj1 (post_migration_verdict_iff w)), Hsrc. done.
Qed.

(** ** Property registration *)

Lemma add_properties_loop_flat l st :
  add_properties_loop l st = qom_until_error (flat_map property_calls l) st.
Proof.
  revert st. induction l as [| i l IH]; intros [klass calls]; [done |].
  cbn [add_properties_loop flat_map property_calls app qom_until_error qom_do fst snd].
  unfold add_properties_body.
  destruct (object_class_property_add klass _ _ _) as [klass1 [e1 |]]; [done |].
  destruct (object_class_property_set_description klass1 _ _) as [klass2 [e2 |]]; [done |].
  apply IH.
Qed.

Lemma qom_until_error_calls l st :
  ∃ made,
    (qom_until_error l st).1.2 = st.2 ++ made ∧
    made `prefix_of` l ∧
    ((qom_until_error l st).2 = None → made = l) ∧
    (l ≠ [] → made ≠ []).
Proof.
  revert st. induction l as [| c l IH]; intros [klass calls].
  - exists []. cbn. by rewrite app_nil_r.
  - cbn [qom_until_error fst snd].
    destruct (qom_do klass c) as [klass1 [e |]].
    + exists [c]. cbn. split; [done |]. split; [| done].
      by apply prefix_cons, prefix_nil.
    + destruct (IH (klass1, calls ++ [c])) as (made & Hlog & Hpre & Hall & _).
      exists (c :: made). cbn [fst snd] in Hlog |- *.
      rewrite Hlog, <- app_assoc. split; [done |]. split; [by apply prefix_cons |].
      split; [| done]. intros Herr. by rewrite Hall.
Qed.

(** X13. [spapr_caps_add_properties] makes, in table order, the calls
    that add the property cap-htm, describe it, add cap-vsx, describe it,
    add cap-dfp and describe it, each a boolean property with the table
    entry as its opaque, and stops at the first call that sets an error,
    which it propagates.  So the calls made are a non-empty prefix of
    these six, and all six when no error comes back. *)
Theorem spapr_caps_add_properties_stops_at_first_error klass :
  let htm := capability_table !!! SPAPR_CAP_HTM in
  let vsx := capability_table !!! SPAPR_CAP_VSX in
  let dfp := capability_table !!! SPAPR_CAP_DFP in
  let all_calls :=
    [ PropertyAdd "cap-htm" "bool" htm;
      PropertySetDescription "cap-htm" "Allow Hardware Transactional Memory (HTM)";
      PropertyAdd "cap-vsx" "bool" vsx;
      PropertySetDescription "cap-vsx" "Allow Vector Scalar Extensions (VSX)";
      PropertyAdd "cap-dfp" "bool" dfp;
      PropertySetDescription "cap-dfp" "Allow Decimal Floating Point (DFP)" ] in
  spapr_caps_add_properties klass = qom_until_error all_calls (klass, []) ∧
  (spapr_caps_add_properties klass).1.2 `prefix_of` all_calls ∧
  (spapr_caps_add_properties klass).1.2 ≠ [] ∧
  ((spapr_caps_add_properties klass).2 = None →
   (spapr_caps_add_properties klass).1.2 = all_calls).
Proof.
  intros htm vsx dfp all_calls.
  assert (spapr_caps_add_properties klass = qom_until_error all_calls (klass, [])) as Hflat.
  { unfold spapr_caps_add_properties. by rewrite add_properties_loop_flat. }
  split; [exact Hflat |]. rewrite Hflat.
  destruct (qom_until_error_calls all_calls (klass, [])) as (made & Hlog & Hpre & Hall & Hne).
  cbn [snd app] in Hlog. rewrite Hlog.
  split; [exact Hpre |]. split; [by apply Hne | exact Hall].
Qed.

End spapr_caps.

(** * The scenarios of the design document, run *)

Ltac solve_wf :=
  repeat split; try reflexivity; cbn;
  repeat (apply Forall_cons_2; [unfold is_uint8; lia |]); apply Forall_nil_2.

Lemma scenario_A_wf : spapr_wf (spapr scenario_A).
Proof. solve_wf. Qed.

(** Scenario A: the defaults narrow HTM, and reset calls apply(HTM, 0),
    apply(VSX, 1), apply(DFP, 1) in this order. *)
Example scenario_A_reset :
  ∃ w', @spapr_caps_reset example_platform scenario_A = (Returned tt, w') ∧
        caps (def (spapr w')) = [0; 1; 1]%Z ∧
        caps (eff (spapr w')) = [0; 1; 1]%Z ∧
        trace w' = [EvApply 0 0; EvApply 1 1; EvApply 2 1].
Proof. eexists. split; [vm_compute; reflexivity |]. repeat split. Qed.

(** An override the backend cannot honour is fatal at the first callback. *)
Example scenario_A_tcg_reset :
  ∃ w', @spapr_caps_reset example_platform scenario_A_tcg = (Exited 1, w') ∧
        trace w' = [EvApply 0 1;
                    EvErrorReport "No Transactional Memory support in TCG, try cap-htm=off"].
Proof. eexists. split; [vm_compute; reflexivity |]. reflexivity. Qed.

(** Scenario B: the migration is refused, citing htm, 1 and 0. *)
Example scenario_B_post_migration :
  ∃ w', @spapr_caps_post_migration example_platform scenario_B
        = (Returned (-22)%Z, w') ∧
        trace w' = [EvErrorReport
          "cap-htm higher level (1) in incoming stream than on destination (0)"].
Proof. eexists. split; [vm_compute; reflexivity |]. reflexivity. Qed.

Example scenario_downgrade_post_migration :
  ∃ w', @spapr_caps_post_migration example_platform scenario_downgrade
        = (Returned 0%Z, w') ∧
        trace w' = [EvWarnReport
          "cap-htm lower level (0) in incoming stream than on destination (1)"].
Proof. eexists. split; [vm_compute; reflexivity |]. reflexivity. Qed.

(** * The properties at the scenarios *)

Lemma spapr_caps_post_migration_verdict_witness :
  ∃ (ret : Z) (new : list event) (w' : World),
    @spapr_caps_post_migration example_platform scenario_B = (Returned ret, w') ∧
    w' = add_events new scenario_B ∧
    ret = (- EINVAL)%Z ∧
    new = [EvErrorReport
             "cap-htm higher level (1) in incoming stream than on destination (0)"] ∧
    spapr w' = spapr scenario_B.
Proof.
  destruct (@spapr_caps_post_migration_verdict example_platform scenario_B)
    as (ret & new & w' & Hrun & Hw' & Hsame & _ & Hfail & _ & _ & _ & _ & Hnew & _).
  exists ret, new, w'. split; [exact Hrun |]. split; [exact Hw' |].
  split; [| split; [| exact Hsame]].
  - apply Hfail. exists 0. split; [unfold SPAPR_CAP_NUM; lia | vm_compute; reflexivity].
  - rewrite Hnew. vm_compute. reflexivity.
Defined.

Lemma post_migration_srccaps_overlay_witness :
  caps_wf (default_caps (smc (spapr scenario_B))) ∧
  0 < SPAPR_CAP_NUM ∧
  cap_get (mig (spapr scenario_B)) 0 ≠ cap_get (def (spapr scenario_B)) 0 ∧
  cap_get (@post_migration_srccaps example_platform (spapr scenario_B) example_power7) 0
  = cap_get (mig (spapr scenario_B)) 0.
Proof.
  assert (caps_wf (default_caps (smc (spapr scenario_B)))) as Hwf by solve_wf.
  assert (0 < SPAPR_CAP_NUM) as Hi by (unfold SPAPR_CAP_NUM; lia).
  assert (cap_get (mig (spapr scenario_B)) 0 ≠ cap_get (def (spapr scenario_B)) 0)
    as Hne by (vm_compute; discriminate).
  split; [exact Hwf |]. split; [exact Hi |]. split; [exact Hne |].
  exact (proj1 (@post_migration_srccaps_overlay example_platform
                  (spapr scenario_B) example_power7 0 Hwf Hi) Hne).
Defined.

Lemma default_caps_with_cpu_narrows_witness :
  caps_wf (default_caps (smc (spapr scenario_A))) ∧
  0 < SPAPR_CAP_NUM ∧
  @ppc_check_compat example_platform example_power7
    (@cap_compat_threshold example_platform 0) 0 (max_compat_pvr (spapr scenario_A))
  = false ∧
  cap_get (@default_caps_with_cpu example_platform (spapr scenario_A) example_power7) 0
  = SPAPR_CAP_OFF.
Proof.
  assert (caps_wf (default_caps (smc (spapr scenario_A)))) as Hwf by solve_wf.
  assert (0 < SPAPR_CAP_NUM) as Hi by (unfold SPAPR_CAP_NUM; lia).
  split; [exact Hwf |]. split; [exact Hi |]. split; [vm_compute; reflexivity |].
  apply (@default_caps_with_cpu_narrows example_platform
           (spapr scenario_A) example_power7 0 Hwf Hi).
  vm_compute; reflexivity.
Defined.

Lemma spapr_cap_needed_iff_witness :
  0 < SPAPR_CAP_NUM ∧
  ∃ vmsd, field vmsd = 0 ∧ needed vmsd (spapr scenario_A_htm_on) = true.
Proof.
  assert (0 < SPAPR_CAP_NUM) as Hi by (unfold SPAPR_CAP_NUM; lia).
  split; [exact Hi |].
  destruct (spapr_cap_needed_iff 0 (spapr scenario_A_htm_on) Hi)
    as (vmsd & _ & Hfield & Hneeded).
  exists vmsd. split; [exact Hfield |]. apply Hneeded.
  split; [reflexivity | vm_compute; discriminate].
Defined.

Lemma spapr_caps_reset_effect_witness :
  spapr_wf (spapr scenario_A) ∧
  ∃ w' new,
    @spapr_caps_reset example_platform scenario_A = (Returned tt, w') ∧
    trace w' = trace scenario_A ++ new ∧
    apply_calls new
    = [ (SPAPR_CAP_HTM, cap_get (eff (spapr w')) SPAPR_CAP_HTM);
        (SPAPR_CAP_VSX, cap_get (eff (spapr w')) SPAPR_CAP_VSX);
        (SPAPR_CAP_DFP, cap_get (eff (spapr w')) SPAPR_CAP_DFP) ].
Proof.
  assert (spapr_wf (spapr scenario_A)) as Hwf by solve_wf.
  split; [exact Hwf |].
  destruct (@spapr_caps_reset_effect example_platform scenario_A Hwf)
    as (r & w' & new & Hrun & Htrace & _ & _ & _ & [_ Hcalls] & _).
  assert (r = Returned tt) as Hr.
  { assert ((@spapr_caps_reset example_platform scenario_A).1 = Returned tt) as Hfst
      by (vm_compute; reflexivity).
    rewrite Hrun in Hfst. exact Hfst. }
  exists w', new. subst r. split; [exact Hrun |]. split; [exact Htrace |].
  apply Hcalls. reflexivity.
Defined.

Lemma spapr_caps_reset_idempotent_witness :
  spapr_wf (spapr scenario_A) ∧
  ∃ w1 w2,
    @spapr_caps_reset example_platform scenario_A = (Returned tt, w1) ∧
    @spapr_caps_reset example_platform w1 = (Returned tt, w2) ∧
    def (spapr w2) = def (spapr w1) ∧
    eff (spapr w2) = eff (spapr w1).
Proof.
  assert (spapr_wf (spapr scenario_A)) as Hwf by solve_wf.
  split; [exact Hwf |].
  set (w1 := (@spapr_caps_reset example_platform scenario_A).2).
  assert (@spapr_caps_reset example_platform scenario_A = (Returned tt, w1)) as Hfirst
    by (vm_compute; reflexivity).
  assert (same_but_mig (spapr w1) (spapr w1)) as Hsame by (repeat split).
  assert (same_env w1 w1) as Henv by (repeat split).
  destruct (@spapr_caps_reset_idempotent example_platform scenario_A w1 w1
              Hwf Hfirst Hsame Henv)
    as (w2 & calls & Hsecond & Hdef & Heff & _).
  exists w1, w2. split; [exact Hfirst |]. split; [exact Hsecond |].
  split; [exact Hdef | exact Heff].
Defined.

Lemma scenario_B_invariant : caps_invariant (spapr scenario_B).
Proof.
  intros i Hi _. unfold SPAPR_CAP_NUM, SPAPR_CAP_DFP in Hi.
  destruct i as [| [| [| i]]]; (reflexivity || lia).
Defined.

Lemma caps_invariant_maintained_witness :
  spapr_wf (spapr scenario_B) ∧
  caps_invariant (spapr scenario_B) ∧
  caps_invariant (spapr (@spapr_caps_reset example_platform scenario_B).2) ∧
  caps_invariant
    (spapr (@spapr_cap_set_bool example_platform "on" "cap-htm"
              (@capability_table example_platform !!! 0) errp_local scenario_B).2) ∧
  caps_invariant (spapr (@spapr_caps_post_migration example_platform scenario_B).2).
Proof.
  assert (spapr_wf (spapr scenario_B)) as Hwf by solve_wf.
  destruct (@caps_invariant_maintained example_platform scenario_B Hwf)
    as [Hreset Hkeep].
  destruct (Hkeep scenario_B_invariant) as (Hset & _ & _ & Hpost).
  split; [exact Hwf |]. split; [exact scenario_B_invariant |].
  split; [exact Hreset |]. split; [| exact Hpost].
  exact (proj1 (Hset "on"%string "cap-htm"%string
                  (@capability_table example_platform !!! 0) errp_local)).
Defined.

Lemma cap_apply_off_succeeds_witness :
  @capability_table example_platform !!! 0 ∈ @capability_table example_platform ∧
  apply (@capability_table example_platform !!! 0) SPAPR_CAP_OFF error_fatal
    scenario_A_tcg
  = (Returned None, scenario_A_tcg).
Proof.
  assert (@capability_table example_platform !!! 0 ∈ @capability_table example_platform)
    as Hin by (apply list_elem_of_here).
  split; [exact Hin |].
  exact (proj2 (proj2 (proj2 (@cap_apply_off_succeeds example_platform error_fatal
                                scenario_A_tcg))) _ Hin).
Defined.

Lemma spapr_cap_set_bool_decode_error_witness :
  @visit_type_bool example_platform "maybe"%string "cap-htm"
  = inl "Parameter 'cap-htm' expects 'on' or 'off'"%string ∧
  @spapr_cap_set_bool example_platform "maybe"%string "cap-htm"
    (@capability_table example_platform !!! 0) errp_local scenario_A
  = (Returned (Some "Parameter 'cap-htm' expects 'on' or 'off'"%string), scenario_A).
Proof.
  assert (@visit_type_bool example_platform "maybe"%string "cap-htm"
          = inl "Parameter 'cap-htm' expects 'on' or 'off'"%string) as Hdecode
    by (vm_compute; reflexivity).
  split; [exact Hdecode |].
  exact (proj2 (proj2 (@spapr_cap_set_bool_decode_error example_platform
                         "maybe"%string "cap-htm"
                         (@capability_table example_platform !!! 0) errp_local
                         scenario_A _ Hdecode))).
Defined.

(** * The further properties at the scenarios *)

Ltac solve_ordinal := unfold SPAPR_CAP_NUM, SPAPR_CAP_DFP; lia.

Lemma spapr_caps_reset_returns_iff_supported_witness :
  spapr_wf (spapr scenario_A) ∧
  (@spapr_caps_reset example_platform scenario_A).1 = Returned tt ∧
  (@merged_level example_platform (spapr scenario_A) (first_cpu scenario_A) 1 = 0%Z ∨
   @backend_supports example_platform 1 scenario_A = true).
Proof.
  assert (spapr_wf (spapr scenario_A)) as Hwf by solve_wf.
  assert ((@spapr_caps_reset example_platform scenario_A).1 = Returned tt) as Hret
    by (vm_compute; reflexivity).
  split; [exact Hwf |]. split; [exact Hret |].
  apply (proj1 (@spapr_caps_reset_returns_iff_supported example_platform scenario_A Hwf)
           Hret 1).
  solve_ordinal.
Defined.

Lemma spapr_caps_reset_first_refusal_witness :
  spapr_wf (spapr scenario_A_tcg) ∧
  @merged_level example_platform (spapr scenario_A_tcg) (first_cpu scenario_A_tcg) 0 ≠ 0%Z ∧
  @backend_supports example_platform 0 scenario_A_tcg = false ∧
  (@spapr_caps_reset example_platform scenario_A_tcg).1 = Exited 1 ∧
  trace (@spapr_caps_reset example_platform scenario_A_tcg).2
  = [EvApply 0 1;
     EvErrorReport "No Transactional Memory support in TCG, try cap-htm=off"].
Proof.
  assert (spapr_wf (spapr scenario_A_tcg)) as Hwf by solve_wf.
  assert (0 < SPAPR_CAP_NUM) as Hk by solve_ordinal.
  assert (∀ j, j < 0 →
            @merged_level example_platform (spapr scenario_A_tcg)
              (first_cpu scenario_A_tcg) j = 0%Z ∨
            @backend_supports example_platform j scenario_A_tcg = true) as Hbefore
    by (intros j Hj; lia).
  assert (@merged_level example_platform (spapr scenario_A_tcg)
            (first_cpu scenario_A_tcg) 0 ≠ 0%Z) as Hlevel
    by (vm_compute; discriminate).
  assert (@backend_supports example_platform 0 scenario_A_tcg = false) as Hsup
    by (vm_compute; reflexivity).
  split; [exact Hwf |]. split; [exact Hlevel |]. split; [exact Hsup |].
  rewrite (@spapr_caps_reset_first_refusal example_platform scenario_A_tcg 0
             Hwf Hk Hbefore Hlevel Hsup).
  split; vm_compute; reflexivity.
Defined.

Lemma spapr_cap_set_bool_writes_one_slot_witness :
  @visit_type_bool example_platform "on"%string "cap-htm" = inr true ∧
  spapr_wf (spapr scenario_A) ∧
  index (@capability_table example_platform !!! 0) < SPAPR_CAP_NUM ∧
  ∃ w',
    @spapr_cap_set_bool example_platform "on"%string "cap-htm"
      (@capability_table example_platform !!! 0) error_fatal scenario_A
    = (Returned None, w') ∧
    cap_get (eff (spapr w')) 0 = SPAPR_CAP_ON ∧
    def (spapr w') = def (spapr scenario_A).
Proof.
  assert (@visit_type_bool example_platform "on"%string "cap-htm" = inr true) as Hdecode
    by (vm_compute; reflexivity).
  assert (spapr_wf (spapr scenario_A)) as Hwf by solve_wf.
  assert (index (@capability_table example_platform !!! 0) < SPAPR_CAP_NUM) as Hidx
    by (vm_compute; lia).
  split; [exact Hdecode |]. split; [exact Hwf |]. split; [exact Hidx |].
  destruct (@spapr_cap_set_bool_writes_one_slot example_platform "on"%string "cap-htm"
              (@capability_table example_platform !!! 0) error_fatal scenario_A true
              Hdecode Hwf Hidx)
    as (w' & Hrun & _ & Heff & _ & _ & _ & Hdef & _).
  exists w'. split; [exact Hrun |]. split; [exact Heff | exact Hdef].
Defined.

Lemma spapr_cap_set_bool_twice_witness :
  @visit_type_bool example_platform "on"%string "cap-htm" = inr true ∧
  @visit_type_bool example_platform "off"%string "cap-vsx" = inr false ∧
  index (@capability_table example_platform !!! 0)
  ≠ index (@capability_table example_platform !!! 1) ∧
  (@spapr_cap_set_bool example_platform "on"%string "cap-htm"
     (@capability_table example_platform !!! 0) errp_local
   ≫= λ _, @spapr_cap_set_bool example_platform "off"%string "cap-vsx"
             (@capability_table example_platform !!! 1) errp_local) scenario_B
  = (@spapr_cap_set_bool example_platform "off"%string "cap-vsx"
       (@capability_table example_platform !!! 1) errp_local
     ≫= λ _, @spapr_cap_set_bool example_platform "on"%string "cap-htm"
               (@capability_table example_platform !!! 0) errp_local) scenario_B.
Proof.
  assert (@visit_type_bool example_platform "on"%string "cap-htm" = inr true) as Hd1
    by (vm_compute; reflexivity).
  assert (@visit_type_bool example_platform "off"%string "cap-vsx" = inr false) as Hd2
    by (vm_compute; reflexivity).
  assert (index (@capability_table example_platform !!! 0)
          ≠ index (@capability_table example_platform !!! 1)) as Hne
    by (cbn; discriminate).
  split; [exact Hd1 |]. split; [exact Hd2 |]. split; [exact Hne |].
  exact (proj2 (@spapr_cap_set_bool_twice example_platform
                  "on"%string "cap-htm" (@capability_table example_platform !!! 0)
                  errp_local
                  "off"%string "cap-vsx" (@capability_table example_platform !!! 1)
                  errp_local scenario_B true false Hd1 Hd2) Hne).
Defined.

Lemma spapr_cap_set_bool_survives_reset_witness :
  @visit_type_bool example_platform "on"%string "cap-htm" = inr true ∧
  spapr_wf (spapr scenario_A) ∧
  index (@capability_table example_platform !!! 0) < SPAPR_CAP_NUM ∧
  cap_get (@default_caps_with_cpu example_platform (spapr scenario_A)
             (first_cpu scenario_A)) 0 = SPAPR_CAP_OFF ∧
  cap_get
    (eff (spapr (@spapr_caps_reset example_platform
                   (@spapr_cap_set_bool example_platform "on"%string "cap-htm"
                      (@capability_table example_platform !!! 0) errp_local
                      scenario_A).2).2)) 0
  = SPAPR_CAP_ON.
Proof.
  assert (@visit_type_bool example_platform "on"%string "cap-htm" = inr true) as Hdecode
    by (vm_compute; reflexivity).
  assert (spapr_wf (spapr scenario_A)) as Hwf by solve_wf.
  assert (index (@capability_table example_platform !!! 0) < SPAPR_CAP_NUM) as Hidx
    by (vm_compute; lia).
  split; [exact Hdecode |]. split; [exact Hwf |]. split; [exact Hidx |].
  split; [vm_compute; reflexivity |].
  exact (proj1 (proj2 (@spapr_cap_set_bool_survives_reset example_platform
                         "on"%string "cap-htm" (@capability_table example_platform !!! 0)
                         errp_local scenario_A true Hdecode Hwf Hidx))).
Defined.

Lemma spapr_caps_reset_needed_witness :
  spapr_wf (spapr scenario_A_htm_on) ∧
  0 < SPAPR_CAP_NUM ∧
  SPAPR_CAP_MIG_STATE_needed 0
    (spapr (@spapr_caps_reset example_platform scenario_A_htm_on).2) = true.
Proof.
  assert (spapr_wf (spapr scenario_A_htm_on)) as Hwf by solve_wf.
  assert (0 < SPAPR_CAP_NUM) as Hi by solve_ordinal.
  split; [exact Hwf |]. split; [exact Hi |].
  apply (proj1 (@spapr_caps_reset_needed example_platform scenario_A_htm_on 0 Hwf Hi)).
  split; [reflexivity | vm_compute; discriminate].
Defined.

Lemma scenario_htm_forced_off_invariant : caps_invariant (spapr scenario_htm_forced_off).
Proof.
  intros i Hi Hflag. unfold SPAPR_CAP_NUM, SPAPR_CAP_DFP in Hi.
  destruct i as [| [| [| i]]]; (reflexivity || discriminate Hflag || lia).
Defined.

Lemma scenario_downgrade_invariant : caps_invariant (spapr scenario_downgrade).
Proof.
  intros i Hi Hflag. unfold SPAPR_CAP_NUM, SPAPR_CAP_DFP in Hi.
  destruct i as [| [| [| i]]]; (reflexivity || discriminate Hflag || lia).
Defined.

Lemma spapr_caps_nothing_received_witness :
  spapr_wf (spapr scenario_htm_forced_off) ∧
  @default_caps_with_cpu example_platform (spapr scenario_htm_forced_off)
    (first_cpu scenario_htm_forced_off)
  = def (spapr scenario_htm_forced_off) ∧
  caps_invariant (spapr scenario_htm_forced_off) ∧
  (@spapr_caps_post_migration example_platform
     (spapr_caps_pre_load scenario_htm_forced_off).2).1
  = Returned (- EINVAL)%Z.
Proof.
  assert (spapr_wf (spapr scenario_htm_forced_off)) as Hwf by solve_wf.
  assert (@default_caps_with_cpu example_platform (spapr scenario_htm_forced_off)
            (first_cpu scenario_htm_forced_off)
          = def (spapr scenario_htm_forced_off)) as Hfresh
    by (vm_compute; reflexivity).
  split; [exact Hwf |]. split; [exact Hfresh |].
  split; [exact scenario_htm_forced_off_invariant |].
  apply (proj1 (@spapr_caps_nothing_received example_platform scenario_htm_forced_off
                  Hwf Hfresh scenario_htm_forced_off_invariant)).
  exists 0. split; [solve_ordinal |]. split; [reflexivity | vm_compute; reflexivity].
Defined.

Lemma spapr_caps_migration_end_to_end_witness :
  spapr_wf (spapr scenario_downgrade) ∧
  spapr_wf (spapr scenario_B) ∧
  caps_invariant (spapr scenario_downgrade) ∧
  def (spapr scenario_B) = def (spapr scenario_downgrade) ∧
  @default_caps_with_cpu example_platform (spapr scenario_B) (first_cpu scenario_B)
  = def (spapr scenario_B) ∧
  (@spapr_caps_post_migration example_platform
     (set_spapr
        (vmstate_load_caps vmstate_spapr_caps
           (spapr (spapr_caps_pre_save scenario_downgrade).2)
           (spapr (spapr_caps_pre_load scenario_B).2))
        (spapr_caps_pre_load scenario_B).2)).1
  = Returned (- EINVAL)%Z.
Proof.
  assert (spapr_wf (spapr scenario_downgrade)) as Hwfs by solve_wf.
  assert (spapr_wf (spapr scenario_B)) as Hwfd by solve_wf.
  assert (def (spapr scenario_B) = def (spapr scenario_downgrade)) as Hdef
    by reflexivity.
  assert (@default_caps_with_cpu example_platform (spapr scenario_B)
            (first_cpu scenario_B) = def (spapr scenario_B)) as Hfresh
    by (vm_compute; reflexivity).
  split; [exact Hwfs |]. split; [exact Hwfd |].
  split; [exact scenario_downgrade_invariant |].
  split; [exact Hdef |]. split; [exact Hfresh |].
  apply (proj1 (proj2 (@spapr_caps_migration_end_to_end example_platform
                         scenario_downgrade scenario_B Hwfs Hwfd
                         scenario_downgrade_invariant Hdef Hfresh))).
  exists 0. split; [solve_ordinal | vm_compute; reflexivity].
Defined.

Lemma spapr_caps_reset_forgets_witness :
  spapr_wf (spapr scenario_A) ∧
  spapr_wf (spapr scenario_B) ∧
  def (spapr scenario_B) ≠ def (spapr scenario_A) ∧
  def (spapr (@spapr_caps_reset example_platform scenario_B).2)
  = def (spapr (@spapr_caps_reset example_platform scenario_A).2) ∧
  eff (spapr (@spapr_caps_reset example_platform scenario_B).2)
  = eff (spapr (@spapr_caps_reset example_platform scenario_A).2).
Proof.
  assert (spapr_wf (spapr scenario_A)) as Hwf by solve_wf.
  assert (spapr_wf (spapr scenario_B)) as Hwf' by solve_wf.
  split; [exact Hwf |]. split; [exact Hwf' |]. split; [vm_compute; discriminate |].
  apply (@spapr_caps_reset_forgets example_platform scenario_A scenario_B Hwf Hwf');
    try reflexivity.
  intros i Hi Hflag. unfold SPAPR_CAP_NUM, SPAPR_CAP_DFP in Hi.
  destruct i as [| [| [| i]]]; (discriminate Hflag || lia).
Defined.

Lemma cap_apply_local_errp_witness :
  0 < SPAPR_CAP_NUM ∧
  ∃ r,
    apply (@capability_table example_platform !!! 0) 1%Z errp_local scenario_A_tcg
    = (r, scenario_A_tcg) ∧
    r = Returned (Some "No Transactional Memory support in TCG, try cap-htm=off"%string).
Proof.
  assert (0 < SPAPR_CAP_NUM) as Hi by solve_ordinal.
  split; [exact Hi |].
  destruct (@cap_apply_local_errp example_platform 0 1%Z scenario_A_tcg Hi)
    as (r & Hrun & Hnone & Habort & Hmsg).
  exists r. split; [exact Hrun |].
  assert (r = Returned (Some (apply_error_msg 0 scenario_A_tcg)))
    as ->; [| reflexivity].
  apply Hmsg.
  - intros [Hval | Hsup]%Hnone; [discriminate Hval | discriminate Hsup].
  - intros (_ & Hvsx & _)%Habort. discriminate Hvsx.
Defined.

Lemma post_migration_srccaps_fresh_witness :
  spapr_wf (spapr scenario_B) ∧
  @default_caps_with_cpu example_platform (spapr scenario_B) (first_cpu scenario_B)
  = def (spapr scenario_B) ∧
  @post_migration_srccaps example_platform (spapr scenario_B) (first_cpu scenario_B)
  = mig (spapr scenario_B) ∧
  (@spapr_caps_post_migration example_platform scenario_B).1 = Returned (- EINVAL)%Z.
Proof.
  assert (spapr_wf (spapr scenario_B)) as Hwf by solve_wf.
  assert (@default_caps_with_cpu example_platform (spapr scenario_B)
            (first_cpu scenario_B) = def (spapr scenario_B)) as Hfresh
    by (vm_compute; reflexivity).
  destruct (@post_migration_srccaps_fresh example_platform scenario_B Hwf Hfresh)
    as [Hsrc Hfail].
  split; [exact Hwf |]. split; [exact Hfresh |]. split; [exact Hsrc |].
  apply Hfail. exists 0. split; [solve_ordinal | vm_compute; reflexivity].
Defined.

(** A class that already has cap-vsx: registration stops at the third
    call, with its error. *)
Example add_properties_duplicate :
  (@spapr_caps_add_properties example_platform _ example_property_add
     example_property_set_description ["cap-vsx"%string]).2
  = Some "attempt to add duplicate property 'cap-vsx'"%string ∧
  length (@spapr_caps_add_properties example_platform _ example_property_add
            example_property_set_description ["cap-vsx"%string]).1.2 = 3 ∧
  (@spapr_caps_add_properties example_platform _ example_property_add
     example_property_set_description ["cap-vsx"%string]).1.1
  = ["cap-htm"; "cap-vsx"]%string.
Proof. vm_compute. repeat split. Qed.

Lemma spapr_caps_add_properties_stops_at_first_error_witness :
  (@spapr_caps_add_properties example_platform _ example_property_add
     example_property_set_description []).2 = None ∧
  length (@spapr_caps_add_properties example_platform _ example_property_add
            example_property_set_description []).1.2 = 6.
Proof.
  assert ((@spapr_caps_add_properties example_platform _ example_property_add
             example_property_set_description []).2 = None) as Hok
    by (vm_compute; reflexivity).
  split; [exact Hok |].
  pose proof (proj2 (proj2 (proj2
                (@spapr_caps_add_properties_stops_at_first_error example_platform _
                   example_property_add example_property_set_description []))) Hok)
    as Hall.
  cbv zeta in Hall. rewrite Hall.
  reflexivity.
Defined.
